(** * Terminal raytracer: a shallow embedding of [src/main.py]

    The program is a single Python class [Game]: a bit-field map, a player
    (position and facing angle, all IEEE-754 doubles), a ray caster, a
    per-column projector and a character screen buffer.

    Python [float] is IEEE-754 binary64, which is exactly Rocq's primitive
    [float]; Python [int] is unbounded, modelled by [Z].  Operations that
    raise in Python return a [result].  The functions of the C math
    library ([math.cos], [math.sin], [math.tan], and [pow] behind [**])
    are not fixed by IEEE-754: they are a parameter of the development
    (record [Libm]). *)

From Stdlib Require Import ZArith List Bool Ascii String Lia.
From Stdlib Require Import Floats.
From stdpp Require Import base list.
Import ListNotations.

Local Open Scope Z_scope.

(** ** Python runtime: exceptions and numbers *)

Module Py.

(** The exceptions the program can raise. *)
Inductive exn : Set :=
| ZeroDivisionError
| ValueError
| OverflowError
| IndexError
| TypeError
| SystemExit.

Inductive result (A : Type) : Type :=
| Ok (a : A)
| Raise (e : exn).

Arguments Ok {A} a.
Arguments Raise {A} e.

Definition bind {A B : Type} (r : result A) (k : A -> result B) : result B :=
  match r with
  | Ok a => k a
  | Raise e => Raise e
  end.

Declare Scope py_scope.
Delimit Scope py_scope with py.
Notation "x <- r ;; k" := (bind r (fun x => k))
  (at level 100, r at next level, right associativity) : py_scope.

(** *** float -> int

    A finite double is [(-1)^s * m * 2^e]; it is written as the fraction
    [num / den] with [den] a power of two. *)

Definition SF_num (s : bool) (m : positive) (e : Z) : Z :=
  cond_Zopp s (Z.pos m * 2 ^ Z.max e 0).

Definition SF_den (e : Z) : Z := 2 ^ Z.max (- e) 0.

(** [int], [math.floor] and [math.ceil] raise [ValueError] on a NaN and
    [OverflowError] on an infinity; otherwise [rounding] is applied to the
    exact fraction. *)
Definition float_to_int (rounding : Z -> Z -> Z) (f : float) : result Z :=
  match Prim2SF f with
  | S754_zero _ => Ok 0
  | S754_finite s m e => Ok (rounding (SF_num s m e) (SF_den e))
  | S754_infinity _ => Raise OverflowError
  | S754_nan => Raise ValueError
  end.

(** [int(f)]: truncation toward zero. *)
Definition int : float -> result Z := float_to_int Z.quot.

(** [math.floor(f)]. *)
Definition floor : float -> result Z := float_to_int Z.div.

(** [math.ceil(f)]. *)
Definition ceil : float -> result Z :=
  float_to_int (fun n d => - ((- n) / d)).

(** *** int -> float

    The conversion rounds to nearest, ties to even, and raises
    [OverflowError] when the integer is too large for a double.
    [int_scaled n e] is the double nearest to [n * 2^e]. *)
Definition int_scaled (n e : Z) : result float :=
  match binary_normalize prec emax n e false with
  | S754_infinity _ => Raise OverflowError
  | sf => Ok (SF2Prim sf)
  end.

(** [float(n)], the implicit conversion in [int op float]. *)
Definition float_of_int (n : Z) : result float := int_scaled n 0.

(** [n / 2] on two ints (true division): the correctly rounded quotient,
    that is the double nearest to [n * 2^-1]. *)
Definition int_truediv_2 (n : Z) : result float := int_scaled n (-1).

(** [a / b] on floats raises on a zero divisor (of either sign). *)
Definition truediv (a b : float) : result float :=
  if PrimFloat.eqb b 0 then Raise ZeroDivisionError else Ok (a / b)%float.

(** [n % 2.0] for an int [n] that is the floor of a double: [float(n)] is
    exact, and the floored float remainder is [0.0] or [1.0]. *)
Definition int_mod_2 (n : Z) : float :=
  if Z.odd n then 1%float else 0%float.

(** CPython's wrapper around a one-argument libm function: a NaN result
    from a non-NaN argument, or an infinite result from a finite argument,
    is a [ValueError] (math domain error). *)
Definition math_1 (f : float -> float) (x : float) : result float :=
  let r := f x in
  if is_nan r && negb (is_nan x) then Raise ValueError
  else if is_infinity r && is_finite x then Raise ValueError
  else Ok r.

(** [math.sqrt]: the IEEE square root behind the same wrapper, hence a
    [ValueError] on a negative argument; NaN, zeros and [+inf] pass
    through. *)
Definition math_sqrt : float -> result float := math_1 PrimFloat.sqrt.

(** [xs[i]] on a list: negative indices count from the end. *)
Definition list_index {A : Type} (xs : list A) (i : Z) : result A :=
  let n := Z.of_nat (List.length xs) in
  let j := if i <? 0 then i + n else i in
  if (j <? 0) || (n <=? j) then Raise IndexError
  else match nth_error xs (Z.to_nat j) with
       | Some a => Ok a
       | None => Raise IndexError
       end.

(** [xs[i] = v]. *)
Definition list_assign {A : Type} (xs : list A) (i : Z) (v : A)
  : result (list A) :=
  let n := Z.of_nat (List.length xs) in
  let j := if i <? 0 then i + n else i in
  if (j <? 0) || (n <=? j) then Raise IndexError
  else Ok (firstn (Z.to_nat j) xs ++ v :: skipn (S (Z.to_nat j)) xs).

(** A slice bound is clamped into [0 .. len]; a negative bound counts
    from the end. *)
Definition slice_bound (n i : Z) : nat :=
  Z.to_nat (if i <? 0 then Z.max (i + n) 0 else Z.min i n).

(** [xs[:i]] and [xs[i:]]. *)
Definition slice_to {A : Type} (xs : list A) (i : Z) : list A :=
  firstn (slice_bound (Z.of_nat (List.length xs)) i) xs.

Definition slice_from {A : Type} (xs : list A) (i : Z) : list A :=
  skipn (slice_bound (Z.of_nat (List.length xs)) i) xs.

(** [num in range(a, b)]. *)
Definition in_range (num a b : Z) : bool := (a <=? num) && (num <? b).

(** [range(n)] as the list of its indices. *)
Definition range (n : Z) : list Z := map Z.of_nat (seq 0 (Z.to_nat n)).

(** [enumerate(xs)]. *)
Definition enumerate {A : Type} (xs : list A) : list (Z * A) :=
  combine (range (Z.of_nat (List.length xs))) xs.

End Py.

Import Py.
Local Open Scope py_scope.

(** ** The map (lines 17-26) *)

(** [bin "1010"] is the value of the Python literal [0b1010]. *)
Fixpoint bin_acc (acc : Z) (s : string) : Z :=
  match s with
  | EmptyString => acc
  | String c s' => bin_acc (2 * acc + (if Ascii.eqb c "1" then 1 else 0)) s'
  end.

Definition bin : string -> Z := bin_acc 0.

Definition MAP : list Z := Eval cbv in
  [ bin "1111111111111111";
    bin "1010001000000001";
    bin "1010011000011001";
    bin "1000000000011001";
    bin "1000011111000011";
    bin "1100001100000111";
    bin "1100000000001011";
    bin "1111111111111111" ].

(** ** [Game.point_in_wall] (lines 89-98)

    [self.MAP[int(y)]] is evaluated first; only its [IndexError] is
    caught.  The exceptions of [int(y)] and [int(x)] propagate. *)
Definition point_in_wall (x y : float) : result bool :=
  iy <- int y ;;
  match list_index MAP iy with
  | Raise IndexError => Ok true
  | Raise e => Raise e
  | Ok line =>
      ix <- int x ;;
      Ok (negb (Z.land line (Z.shiftl 1 (Z.abs (ix - 1))) =? 0))
  end.

(** ** The C math library behind [math] and [**] *)

Record Libm : Type := {
  c_cos : float -> float;
  c_sin : float -> float;
  c_tan : float -> float;
  c_pow : float -> float -> float
}.

Definition math_pi : float := 0x1.921fb54442d18p+1.

(** [a ** 2] on a float (CPython's [float_pow] with exponent [2.0]): NaN,
    infinities, zeros and [+-1.0] are answered without libm; otherwise
    [pow(|a|, 2.0)] is called and an infinite result is an
    [OverflowError]. *)
Definition float_pow_2 (L : Libm) (a : float) : result float :=
  if is_nan a then Ok a
  else if is_infinity a then Ok infinity
  else if PrimFloat.eqb a 0 then Ok 0%float
  else
    let v := if PrimFloat.ltb a 0 then (- a)%float else a in
    if PrimFloat.eqb v 1 then Ok 1%float
    else
      let r := c_pow L v 2 in
      if is_infinity r then Raise OverflowError else Ok r.

(** ** The game object (lines 6-40) *)

Abbreviation row := (list ascii).

Record Game : Type := {
  VW : Z;
  VH : Z;
  WALL_HEIGHT : Z;
  screen : list row;
  player_x : float;
  player_y : float;
  player_angle : float;
  ANGLE_STEP : float
}.

(** [math.pi / 2.7], its half, and [0.08]. *)
Definition FOV : float := (math_pi / 0x1.599999999999ap+1)%float.
Definition HALF_FOV : float := (FOV / 2)%float.
Definition STEP_SIZE : float := 0x1.47ae147ae147bp-4.

(** [Game.__init__], given the terminal size. *)
Definition Game_init (columns lines : Z) (x y angle : float) : result Game :=
  let scr := map (fun _ => map (fun _ => "+"%char) (range columns))
                 (range lines) in
  w <- float_of_int columns ;;
  step <- truediv FOV w ;;
  Ok {| VW := columns; VH := lines; WALL_HEIGHT := lines; screen := scr;
        player_x := x; player_y := y; player_angle := angle;
        ANGLE_STEP := step |}.

Definition set_screen (g : Game) (s : list row) : Game :=
  {| VW := VW g; VH := VH g; WALL_HEIGHT := WALL_HEIGHT g; screen := s;
     player_x := player_x g; player_y := player_y g;
     player_angle := player_angle g; ANGLE_STEP := ANGLE_STEP g |}.

Definition set_player_x (g : Game) (x : float) : Game :=
  {| VW := VW g; VH := VH g; WALL_HEIGHT := WALL_HEIGHT g;
     screen := screen g; player_x := x; player_y := player_y g;
     player_angle := player_angle g; ANGLE_STEP := ANGLE_STEP g |}.

Definition set_player_y (g : Game) (y : float) : Game :=
  {| VW := VW g; VH := VH g; WALL_HEIGHT := WALL_HEIGHT g;
     screen := screen g; player_x := player_x g; player_y := y;
     player_angle := player_angle g; ANGLE_STEP := ANGLE_STEP g |}.

Definition set_player_angle (g : Game) (a : float) : Game :=
  {| VW := VW g; VH := VH g; WALL_HEIGHT := WALL_HEIGHT g;
     screen := screen g; player_x := player_x g; player_y := player_y g;
     player_angle := a; ANGLE_STEP := ANGLE_STEP g |}.

(** ** Methods that read and update the game object

    A method that assigns to attributes of [self] is a function from the
    object before the call to the object after it and the outcome; the
    object keeps the assignments made before an exception. *)

Definition M (A : Type) : Type := Game -> Game * result A.

Definition retM {A : Type} (a : A) : M A := fun g => (g, Ok a).

Definition bindM {A B : Type} (m : M A) (k : A -> M B) : M B :=
  fun g =>
    match m g with
    | (g', Ok a) => k a g'
    | (g', Raise e) => (g', Raise e)
    end.

Definition lift {A : Type} (r : result A) : M A := fun g => (g, r).

Definition gets {A : Type} (f : Game -> A) : M A := fun g => (g, Ok (f g)).

Definition modify (f : Game -> Game) : M unit := fun g => (f g, Ok tt).

Notation "x <~ m ;; k" := (bindM m (fun x => k))
  (at level 100, m at next level, right associativity) : py_scope.
Notation "m ;;; k" := (bindM m (fun _ => k))
  (at level 100, right associativity) : py_scope.

(** The cell written into an entry of the list [walls] of [get_view]:
    the initial int [0], then a tuple [(height, shadow)]. *)
Inductive pyval : Set :=
| PInt (n : Z)
| PTuple (height : Z) (shadow : bool).

Section Methods.

Variable L : Libm.

Definition math_cos : float -> result float := math_1 (c_cos L).
Definition math_sin : float -> result float := math_1 (c_sin L).
Definition math_tan : float -> result float := math_1 (c_tan L).

(** [Game.distance] (lines 85-87). *)
Definition distance (a b : float) : result float :=
  a2 <- float_pow_2 L a ;;
  b2 <- float_pow_2 L b ;;
  math_sqrt (a2 + b2).

(** *** [Game.horizontal_intersection] (lines 143-165)

    [horizontal_march n] is the loop [for _ in range(n)], returning
    [(next_x, next_y)] at the [break] or at exhaustion. *)
Fixpoint horizontal_march (n : nat) (g : Game) (up : bool)
    (dx dy next_x next_y : float) : result (float * float) :=
  match n with
  | O => Ok (next_x, next_y)
  | S n' =>
      let current_x := (next_x + player_x g)%float in
      let current_y :=
        if up then (next_y + player_y g)%float
        else (next_y + player_y g - 1)%float in
      hit <- point_in_wall current_x current_y ;;
      if hit then Ok (next_x, next_y)
      else horizontal_march n' g up dx dy (next_x + dx) (next_y + dy)
  end.

(** [angle / math.pi] divides by a non-zero constant and cannot raise. *)
Definition horizontal_intersection (g : Game) (angle : float)
  : result float :=
  n <- floor (angle / math_pi) ;;
  let up := negb (PrimFloat.eqb (abs (int_mod_2 n)) 0) in
  first_y <-
    (if up then c <- ceil (player_y g) ;; cf <- float_of_int c ;;
                Ok (cf - player_y g)%float
     else f <- floor (player_y g) ;; ff <- float_of_int f ;;
          Ok (ff - player_y g)%float) ;;
  t <- math_tan angle ;;
  first_x <- truediv (- first_y) t ;;
  let dy := if up then 1%float else (-1)%float in
  t' <- math_tan angle ;;
  dx <- truediv (- dy) t' ;;
  p <- horizontal_march 256 g up dx dy first_x first_y ;;
  distance (fst p) (snd p).

(** *** [Game.vertical_intersection] (lines 167-189) *)
Fixpoint vertical_march (n : nat) (g : Game) (right : bool)
    (dx dy next_x next_y : float) : result (float * float) :=
  match n with
  | O => Ok (next_x, next_y)
  | S n' =>
      let current_x :=
        if right then (next_x + player_x g)%float
        else (next_x + player_x g - 1)%float in
      let current_y := (next_y + player_y g)%float in
      hit <- point_in_wall current_x current_y ;;
      if hit then Ok (next_x, next_y)
      else vertical_march n' g right dx dy (next_x + dx) (next_y + dy)
  end.

Definition vertical_intersection (g : Game) (angle : float)
  : result float :=
  n <- floor ((angle - math_pi / 2) / math_pi) ;;
  let right := negb (PrimFloat.eqb (abs (int_mod_2 n)) 0) in
  first_x <-
    (if right then c <- ceil (player_x g) ;; cf <- float_of_int c ;;
                   Ok (cf - player_x g)%float
     else f <- floor (player_x g) ;; ff <- float_of_int f ;;
          Ok (ff - player_x g)%float) ;;
  t <- math_tan angle ;;
  let first_y := (- t * first_x)%float in
  let dx := if right then 1%float else (-1)%float in
  t' <- math_tan angle ;;
  let dy := (dx * - t')%float in
  p <- vertical_march 256 g right dx dy first_x first_y ;;
  distance (fst p) (snd p).

(** *** [Game.get_view] (lines 120-141) *)

(** Line 134: the nearer intersection and its shadow flag. *)
Definition nearer (h_dist v_dist : float) : float * bool :=
  if PrimFloat.ltb h_dist v_dist then (h_dist, false) else (v_dist, true).

(** Lines 136-138: the projected height.  The operands of the division are
    evaluated first ([math.cos] may raise), then the int [WALL_HEIGHT] is
    converted and divided. *)
Definition project (g : Game) (angle min_dist : float) : result Z :=
  c <- math_cos (angle - player_angle g) ;;
  wh <- float_of_int (WALL_HEIGHT g) ;;
  q <- truediv wh (min_dist * c) ;;
  height <- int q ;;
  Ok (if height >? VH g then VH g else height).

(** The angle of the ray of column [idx] (line 130). *)
Definition cast_angle (g : Game) (starting_angle : float) (idx : Z)
  : result float :=
  fi <- float_of_int idx ;;
  Ok (starting_angle - fi * ANGLE_STEP g)%float.

(** The body of the loop (lines 130-139), up to the assignment. *)
Definition view_column (g : Game) (starting_angle : float) (idx : Z)
  : result (Z * bool) :=
  angle <- cast_angle g starting_angle idx ;;
  h_dist <- horizontal_intersection g angle ;;
  v_dist <- vertical_intersection g angle ;;
  let (min_dist, shadow) := nearer h_dist v_dist in
  height <- project g angle min_dist ;;
  Ok (height, shadow).

Fixpoint get_view_loop (g : Game) (starting_angle : float)
    (idxs : list Z) (walls : list pyval) : result (list pyval) :=
  match idxs with
  | [] => Ok walls
  | idx :: rest =>
      hs <- view_column g starting_angle idx ;;
      walls' <- list_assign walls idx (PTuple (fst hs) (snd hs)) ;;
      get_view_loop g starting_angle rest walls'
  end.

Definition get_view (g : Game) : result (list pyval) :=
  let starting_angle := (player_angle g + HALF_FOV)%float in
  let walls := repeat (PInt 0) (Z.to_nat (VW g)) in
  get_view_loop g starting_angle (range (Z.of_nat (List.length walls))) walls.

(** *** [Game.draw_line] (lines 100-114) *)

(** Line 104: [math.floor((self.VH - height) / 2)]. *)
Definition line_offset (vh height : Z) : result Z :=
  f <- int_truediv_2 (vh - height) ;;
  floor f.

Definition draw_row (vh offset x : Z) (shadow : bool) (num : Z) (r : row)
  : row :=
  if in_range num (offset + 1) (vh - offset)
  then slice_to r x ++ [if negb shadow then "#"%char else "+"%char]
         ++ slice_from r (x + 1)
  else slice_to r x ++ [" "%char] ++ slice_from r (x + 1).

Definition draw_line (x height : Z) (shadow : bool) : M unit :=
  vh <~ gets VH ;;
  offset <~ lift (line_offset vh height) ;;
  scr <~ gets screen ;;
  let new_screen :=
    map (fun nr => draw_row vh offset x shadow (fst nr) (snd nr))
        (enumerate scr) in
  modify (fun g => set_screen g new_screen).

(** *** [Game.update] (lines 53-83) *)

(** Lines 60-74: the [if]/[elif] chain on the key. *)
Definition apply_key (key : string) : M unit :=
  if String.eqb key "w" then
    a <~ gets player_angle ;;
    c <~ lift (math_cos a) ;;
    modify (fun g => set_player_x g (player_x g + c * STEP_SIZE)) ;;;
    a <~ gets player_angle ;;
    s <~ lift (math_sin a) ;;
    modify (fun g => set_player_y g (player_y g + - s * STEP_SIZE))
  else if String.eqb key "s" then
    a <~ gets player_angle ;;
    c <~ lift (math_cos a) ;;
    modify (fun g => set_player_x g (player_x g - c * STEP_SIZE)) ;;;
    a <~ gets player_angle ;;
    s <~ lift (math_sin a) ;;
    modify (fun g => set_player_y g (player_y g - - s * STEP_SIZE))
  else if String.eqb key "d" then
    modify (fun g => set_player_angle g (player_angle g - STEP_SIZE))
  else if String.eqb key "a" then
    modify (fun g => set_player_angle g (player_angle g + STEP_SIZE))
  else if String.eqb key "q" then
    lift (Raise SystemExit)
  else retM tt.

(** Lines 82-83: [draw_line(int(x), int(wall_height[0]), wall_height[1])]
    for each enumerated entry; subscripting an int is a [TypeError]. *)
Fixpoint draw_all (cols : list (Z * pyval)) : M unit :=
  match cols with
  | [] => retM tt
  | (x, PTuple height shadow) :: rest =>
      draw_line x height shadow ;;; draw_all rest
  | (_, PInt _) :: _ => lift (Raise TypeError)
  end.

Definition update (key : string) : M unit :=
  px <~ gets player_x ;;
  py <~ gets player_y ;;
  let previous_position := (px, py) in
  apply_key key ;;;
  x <~ gets player_x ;;
  y <~ gets player_y ;;
  hit <~ lift (point_in_wall x y) ;;
  (if hit : bool
   then modify (fun g => set_player_y (set_player_x g (fst previous_position))
                                      (snd previous_position))
   else retM tt) ;;;
  walls <~ (fun g => (g, get_view g)) ;;
  draw_all (enumerate walls).

(** *** [Game.run] (lines 191-195), on the keys read by [getch].

    The terminal output of [refresh_screen] is the screen buffer after
    each step; the loop stops at the first exception. *)
Fixpoint run (keys : list string) : M unit :=
  match keys with
  | [] => retM tt
  | key :: rest => update key ;;; run rest
  end.

End Methods.

(** ** [Game.refresh_screen] (lines 116-118)

    The text written to standard output: the sequence that clears the
    screen and the scrollback and homes the cursor, then the rows joined
    by line feeds. *)

Definition ESC : ascii := ascii_of_nat 27.
Definition LF : ascii := ascii_of_nat 10.

(** ['\033[2J\033[3J\033[H']. *)
Definition clear_sequence : list ascii :=
  [ESC; "["; "2"; "J"; ESC; "["; "3"; "J"; ESC; "["; "H"]%char.

(** [sep.join(rows)]. *)
Fixpoint join (sep : list ascii) (rows : list row) : list ascii :=
  match rows with
  | [] => []
  | r :: rest =>
      match rest with
      | [] => r
      | _ :: _ => r ++ sep ++ join sep rest
      end
  end.

Definition refresh_screen (g : Game) : list ascii :=
  clear_sequence ++ join [LF] (screen g).

(** ** Notions used by the statements *)


(** Python's [min(a, b)]: [b] when [b < a], else [a]. *)
Definition py_min (a b : float) : float :=
  if PrimFloat.ltb b a then b else a.

(** The player is not inside a wall. *)
Definition free (g : Game) : Prop :=
  point_in_wall (player_x g) (player_y g) = Ok false.

(** The screen buffer has [VH] rows of [VW] characters, as built by
    [__init__]. *)
Definition wf_screen (g : Game) : Prop :=
  List.length (screen g) = Z.to_nat (VH g)
  /\ Forall (fun r : row => List.length r = Z.to_nat (VW g)) (screen g).

(** The character that [draw_line] writes on row [num]. *)
Definition glyph (vh offset : Z) (shadow : bool) (num : Z) : ascii :=
  if (offset <? num) && (num <? vh - offset)
  then (if shadow then "+"%char else "#"%char)
  else " "%char.

(** The character at row [num], column [x] of a screen. *)
Definition char_at (scr : list row) (num x : nat) : option ascii :=
  r ← scr !! num; r !! x.

(** The screen after a [draw_line] that computed its offset. *)
Definition draw_screen (vh offset x : Z) (shadow : bool) (scr : list row)
  : list row :=
  imap (fun i r => draw_row vh offset x shadow (Z.of_nat i) r) scr.

(** The exact floor of [(vh - height) / 2], as the specification writes
    the offset of [draw_line]. *)
Definition offset_spec (vh height : Z) : Z := (vh - height) / 2.

(** The object as [__init__] leaves it, apart from the player: the
    constants derived from the terminal size, and the shape of the
    screen. *)
Record wf_game (g : Game) : Prop := {
  wf_wall_height : WALL_HEIGHT g = VH g;
  wf_angle_step :
    exists w, float_of_int (VW g) = Ok w /\ truediv FOV w = Ok (ANGLE_STEP g);
  wf_scr : wf_screen g
}.

(** The screen after the drawing loop over [cols], started on [scr]: the
    loop stops at a column whose entry is not a tuple or whose offset
    raises. *)
Fixpoint paint (vh : Z) (cols : list (Z * pyval)) (scr : list row)
  : list row :=
  match cols with
  | [] => scr
  | (x, PTuple height shadow) :: rest =>
      match line_offset vh height with
      | Ok offset => paint vh rest (draw_screen vh offset x shadow scr)
      | Raise _ => scr
      end
  | (_, PInt _) :: _ => scr
  end.

(** Two screens with the same number of rows that agree on the columns
    before [k]. *)
Definition agree (k : nat) (scr scr' : list row) : Prop :=
  List.length scr = List.length scr'
  /\ forall num c : nat, (c < k)%nat -> char_at scr num c = char_at scr' num c.

(** An entry of [walls] that [draw_line] accepts: a tuple whose offset
    is computed. *)
Definition drawable (vh : Z) (w : pyval) : Prop :=
  exists height shadow offset,
    w = PTuple height shadow /\ line_offset vh height = Ok offset.

(** [f] on each element in turn, stopping at the first exception. *)
Fixpoint traverse {A B : Type} (f : A -> result B) (xs : list A)
  : result (list B) :=
  match xs with
  | [] => Ok []
  | x :: rest => b <- f x ;; bs <- traverse f rest ;; Ok (b :: bs)
  end.

(** The tuple stored for a column. *)
Definition tuple_val (hs : Z * bool) : pyval := PTuple (fst hs) (snd hs).

Section Phases.

Variable L : Libm.

(** Lines 57-79 of [update]: the move and the collision check. *)
Definition commit (key : string) : M unit :=
  px <~ gets player_x ;;
  py <~ gets player_y ;;
  let previous_position := (px, py) in
  apply_key L key ;;;
  x <~ gets player_x ;;
  y <~ gets player_y ;;
  hit <~ lift (point_in_wall x y) ;;
  if hit : bool
  then modify (fun g => set_player_y (set_player_x g (fst previous_position))
                                     (snd previous_position))
  else retM tt.

(** The columns of [get_view], left to right. *)
Definition columns (g : Game) : result (list (Z * bool)) :=
  traverse (view_column L g (player_angle g + HALF_FOV)) (range (VW g)).

(** Lines 136-138 with the floor of the specification in place of
    [int]. *)
Definition project_floor (g : Game) (angle min_dist : float) : result Z :=
  c <- math_cos L (angle - player_angle g) ;;
  wh <- float_of_int (WALL_HEIGHT g) ;;
  q <- truediv wh (min_dist * c) ;;
  height <- floor q ;;
  Ok (if height >? VH g then VH g else height).

(** Column [idx] of the view, written out: the cast angle, the two
    intersection distances, the nearer one with its shadow flag, the
    fisheye-corrected quotient [q] and its truncation [int(q)] clamped to
    [VH]. *)
Definition column_formula (g : Game) (idx : Z) (height : Z) (shadow : bool)
  : Prop :=
  exists fi h_dist v_dist c wh q hq,
    float_of_int idx = Ok fi
    /\ let angle := (player_angle g + HALF_FOV - fi * ANGLE_STEP g)%float in
       horizontal_intersection L g angle = Ok h_dist
       /\ vertical_intersection L g angle = Ok v_dist
       /\ math_cos L (angle - player_angle g) = Ok c
       /\ float_of_int (WALL_HEIGHT g) = Ok wh
       /\ truediv wh (fst (nearer h_dist v_dist) * c) = Ok q
       /\ int q = Ok hq
       /\ height = Z.min hq (VH g)
       /\ shadow = snd (nearer h_dist v_dist).

(** Lines 81-83 of [update]: the frame drawn from the current state. *)
Definition render : M unit :=
  walls <~ (fun g => (g, get_view L g)) ;;
  draw_all (enumerate walls).

End Phases.


(** A double in spec form that is not below zero. *)
Definition SF_nonneg (s : spec_float) : Prop :=
  match s with
  | S754_finite true _ _ | S754_infinity true => False
  | _ => True
  end.

(** ** Two instances of the math library, to run the model

    [libm_poly] evaluates the Taylor polynomials of sine and cosine of
    degree 19 and 18 (an approximation, adequate near 0), takes their
    quotient as tangent, and the product [x * x] as [pow(x, 2.0)]. *)

Definition horner (cs : list float) (x : float) : float :=
  fold_right (fun c acc => (c + x * acc)%float) 0%float cs.

(** The coefficients [c, -c/(k(k+1)), ...] of the series in [x^2]. *)
Fixpoint series (n : nat) (k c : float) : list float :=
  match n with
  | O => []
  | S n' => c :: series n' (k + 2)%float (- c / (k * (k + 1)))%float
  end.

Definition poly_cos (x : float) : float := horner (series 10 1 1) (x * x).
Definition poly_sin (x : float) : float :=
  (x * horner (series 10 2 1) (x * x))%float.

Definition libm_poly : Libm :=
  {| c_cos := poly_cos;
     c_sin := poly_sin;
     c_tan := fun x => (poly_sin x / poly_cos x)%float;
     c_pow := fun x _ => (x * x)%float |}.

(** [libm_2p54] gives, at the arguments that the view from the angle
    [2^54] passes to the library, the doubles that the C library returns
    for them: [tan(2^54)], [tan(2^54 - 2)] and [cos(-2.0)] (printed by
    [float.hex]); [cos(0.0)] is 1 and the squares are exact products
    rounded once.  Elsewhere it is [libm_poly]. *)
Definition libm_2p54 : Libm :=
  {| c_cos := fun x =>
       if PrimFloat.eqb x (-2) then (-0x1.aa22657537205p-2)%float
       else poly_cos x;
     c_sin := poly_sin;
     c_tan := fun x =>
       if PrimFloat.eqb x 0x1p+54 then (-0x1.043e77b07c4dfp+1)%float
       else if PrimFloat.eqb x 0x1.fffffffffffffp+53
            then 0x1.c939951f38eb1p-6%float
            else (poly_sin x / poly_cos x)%float;
     c_pow := fun x _ => (x * x)%float |}.

(** The objects of the concrete runs: an 8 x 6 and an 80 x 24 terminal. *)
Definition game_of (r : result Game) : Game :=
  match r with
  | Ok g => g
  | Raise _ =>
      {| VW := 0; VH := 0; WALL_HEIGHT := 0; screen := [];
         player_x := 0; player_y := 0; player_angle := 0; ANGLE_STEP := 0 |}
  end.

Definition game_small : Game := game_of (Game_init 8 6 3 3 1).

Definition game_2p54 : Game := game_of (Game_init 80 24 3 3 0x1p+54).

Definition game_zero_angle : Game :=
  game_of (Game_init 80 24 3 3 (- HALF_FOV)).

(** * Properties *)

(** ** Python integers: masks and bits *)

Lemma land_mask_testbit (a n : Z) :
  0 <= n -> negb (Z.land a (Z.shiftl 1 n) =? 0) = Z.testbit a n.
Proof.
  intros Hn. rewrite Z.shiftl_1_l.
  destruct (Z.testbit a n) eqn:Hbit.
  - apply negb_true_iff, Z.eqb_neq. intros Hz.
    assert (Hb : Z.testbit (Z.land a (2 ^ n)) n = true).
    { rewrite Z.land_spec, Hbit, Z.pow2_bits_true by exact Hn. reflexivity. }
    rewrite Hz, Z.bits_0 in Hb. discriminate.
  - apply negb_false_iff, Z.eqb_eq, Z.bits_inj'. intros m Hm.
    rewrite Z.land_spec, Z.bits_0, Z.pow2_bits_eqb by exact Hn.
    destruct (Z.eqb_spec n m) as [-> | _].
    + rewrite Hbit. reflexivity.
    + apply andb_false_r.
Qed.

(** Indexing the eight rows of the map. *)
Lemma MAP_index_in (iy : Z) :
  0 <= iy < 8 ->
  exists line, nth_error MAP (Z.to_nat iy) = Some line
               /\ list_index MAP iy = Ok line.
Proof.
  intros H.
  assert (Hc : iy = 0 \/ iy = 1 \/ iy = 2 \/ iy = 3 \/ iy = 4 \/ iy = 5
               \/ iy = 6 \/ iy = 7) by lia.
  repeat (destruct Hc as [-> | Hc]); try subst iy;
    eexists; split; reflexivity.
Qed.


(** ** C1: the occupancy query *)




(** ** C9: columns that share a mask bit *)

(** C9: the result depends on [x] only through [abs(int(x) - 1)]; in
    particular columns 0 and 2 always give the same answer. *)
Theorem C9_point_in_wall_alias (x1 x2 y : float) (ix1 ix2 : Z) :
  int x1 = Ok ix1 -> int x2 = Ok ix2 ->
  Z.abs (ix1 - 1) = Z.abs (ix2 - 1) ->
  point_in_wall x1 y = point_in_wall x2 y.
Proof.
  intros H1 H2 Habs. unfold point_in_wall.
  destruct (int y) as [iy|e]; cbn [bind]; [|reflexivity].
  destruct (list_index MAP iy) as [line|e]; [|reflexivity].
  rewrite H1, H2. cbn [bind]. rewrite Habs. reflexivity.
Qed.

Lemma C9_point_in_wall_alias_witness :
  int 0x1p-1 = Ok 0 /\ int 0x1.4p+1 = Ok 2
  /\ Z.abs (0 - 1) = Z.abs (2 - 1)
  /\ point_in_wall 0x1p-1 0x1.8p+0 = point_in_wall 0x1.4p+1 0x1.8p+0.
Proof.
  split; [reflexivity|]. split; [reflexivity|]. split; [reflexivity|].
  apply (C9_point_in_wall_alias 0x1p-1 0x1.4p+1 0x1.8p+0 0 2);
    reflexivity.
Defined.

(** ** The object outside its screen buffer *)

Lemma set_screen_id (g : Game) : set_screen g (screen g) = g.
Proof. destruct g; reflexivity. Qed.

Lemma set_screen_twice (g : Game) (a b : list row) :
  set_screen (set_screen g a) b = set_screen g b.
Proof. reflexivity. Qed.

Section UpdateFacts.

Variable L : Libm.

(** [draw_line], and so the whole drawing loop, assigns [self.screen]
    only. *)
Lemma draw_line_frame (x height : Z) (shadow : bool) (g : Game) :
  exists scr, fst (draw_line x height shadow g) = set_screen g scr.
Proof.
  unfold draw_line, bindM, gets, lift, modify.
  destruct (line_offset (VH g) height) as [offset|e]; cbn.
  - eexists; reflexivity.
  - exists (screen g). symmetry; apply set_screen_id.
Qed.

Lemma draw_all_frame (cols : list (Z * pyval)) (g : Game) :
  exists scr, fst (draw_all cols g) = set_screen g scr.
Proof.
  revert g. induction cols as [|[x [n|height shadow]] rest IH]; intros g.
  - exists (screen g). symmetry; apply set_screen_id.
  - exists (screen g). symmetry; apply set_screen_id.
  - cbn [draw_all]. unfold bindM.
    destruct (draw_line_frame x height shadow g) as [scr Hscr].
    destruct (draw_line x height shadow g) as [g1 [[]|e]]; cbn in Hscr.
    + destruct (IH g1) as [scr' Hscr']. exists scr'.
      rewrite Hscr', Hscr. reflexivity.
    + exists scr. exact Hscr.
Qed.

Lemma render_frame (g : Game) :
  exists scr, fst (render L g) = set_screen g scr.
Proof.
  unfold render, bindM. destruct (get_view L g) as [walls|e].
  - apply draw_all_frame.
  - exists (screen g). symmetry; apply set_screen_id.
Qed.

(** [update] is the collision-checked move followed by the drawing of the
    frame. *)
Lemma update_split (key : string) (g : Game) :
  update L key g = (commit L key ;;; render L) g.
Proof.
  unfold update, commit, render, bindM, gets, lift, modify, retM.
  destruct (apply_key L key g) as [g1 [[]|e]]; [|reflexivity].
  destruct (point_in_wall (player_x g1) (player_y g1)) as [[|]|e];
    reflexivity.
Qed.

(** The outcome of the collision check after a move that did not raise. *)
Lemma commit_after_key (key : string) (g g1 : Game) :
  apply_key L key g = (g1, Ok tt) ->
  commit L key g =
    match point_in_wall (player_x g1) (player_y g1) with
    | Ok true =>
        (set_player_y (set_player_x g1 (player_x g)) (player_y g), Ok tt)
    | Ok false => (g1, Ok tt)
    | Raise e => (g1, Raise e)
    end.
Proof.
  intros Hkey. unfold commit, bindM, gets, lift, modify, retM.
  rewrite Hkey.
  destruct (point_in_wall (player_x g1) (player_y g1)) as [[|]|e];
    reflexivity.
Qed.

Lemma commit_key_raises (key : string) (g g1 : Game) (e : exn) :
  apply_key L key g = (g1, Raise e) -> commit L key g = (g1, Raise e).
Proof.
  intros Hkey. unfold commit, bindM, gets. rewrite Hkey. reflexivity.
Qed.

(** The state after [update] is the state after the collision check, up
    to the screen buffer, whether or not the drawing raised. *)
Lemma update_after_commit (key : string) (g g2 : Game) :
  commit L key g = (g2, Ok tt) ->
  exists scr, fst (update L key g) = set_screen g2 scr.
Proof.
  intros Hc. rewrite update_split. unfold bindM at 1. rewrite Hc.
  apply render_frame.
Qed.

Lemma update_commit_raises (key : string) (g g2 : Game) (e : exn) :
  commit L key g = (g2, Raise e) -> update L key g = (g2, Raise e).
Proof.
  intros Hc. rewrite update_split. unfold bindM at 1. rewrite Hc.
  reflexivity.
Qed.

(** *** The four moves *)

Lemma apply_key_w (g : Game) (c s : float) :
  math_cos L (player_angle g) = Ok c ->
  math_sin L (player_angle g) = Ok s ->
  apply_key L "w" g =
    (set_player_y (set_player_x g (player_x g + c * STEP_SIZE))
                  (player_y g + - s * STEP_SIZE), Ok tt).
Proof.
  intros Hc Hs. unfold apply_key, bindM, gets, lift, modify. cbn.
  rewrite Hc. cbn. rewrite Hs. reflexivity.
Qed.

Lemma apply_key_s (g : Game) (c s : float) :
  math_cos L (player_angle g) = Ok c ->
  math_sin L (player_angle g) = Ok s ->
  apply_key L "s" g =
    (set_player_y (set_player_x g (player_x g - c * STEP_SIZE))
                  (player_y g - - s * STEP_SIZE), Ok tt).
Proof.
  intros Hc Hs. unfold apply_key, bindM, gets, lift, modify. cbn.
  rewrite Hc. cbn. rewrite Hs. reflexivity.
Qed.

Lemma apply_key_d (g : Game) :
  apply_key L "d" g =
    (set_player_angle g (player_angle g - STEP_SIZE), Ok tt).
Proof. reflexivity. Qed.

Lemma apply_key_a (g : Game) :
  apply_key L "a" g =
    (set_player_angle g (player_angle g + STEP_SIZE), Ok tt).
Proof. reflexivity. Qed.

(** A key that is none of [w], [s], [d], [a], [q] changes nothing. *)
Lemma apply_key_other (key : string) (g : Game) :
  key <> "w"%string -> key <> "s"%string -> key <> "d"%string ->
  key <> "a"%string -> key <> "q"%string ->
  apply_key L key g = (g, Ok tt).
Proof.
  intros Hw Hs Hd Ha Hq. unfold apply_key.
  apply String.eqb_neq in Hw, Hs, Hd, Ha, Hq.
  rewrite Hw, Hs, Hd, Ha, Hq. reflexivity.
Qed.

(** The angle is assigned by the key only: the check and the drawing leave
    it as the move left it. *)
Lemma update_angle (key : string) (g g1 : Game) :
  apply_key L key g = (g1, Ok tt) ->
  player_angle (fst (update L key g)) = player_angle g1.
Proof.
  intros Hkey. pose proof (commit_after_key key g g1 Hkey) as Hc.
  destruct (point_in_wall (player_x g1) (player_y g1)) as [[|]|e].
  - destruct (update_after_commit _ _ _ Hc) as [scr ->]. reflexivity.
  - destruct (update_after_commit _ _ _ Hc) as [scr ->]. reflexivity.
  - rewrite (update_commit_raises _ _ _ _ Hc). reflexivity.
Qed.

(** The position after [update]: the pre-move position when the moved
    position is in a wall, the moved position otherwise. *)
Lemma update_position (key : string) (g g1 : Game) :
  apply_key L key g = (g1, Ok tt) ->
  let g' := fst (update L key g) in
  (point_in_wall (player_x g1) (player_y g1) = Ok true ->
   player_x g' = player_x g /\ player_y g' = player_y g)
  /\ (point_in_wall (player_x g1) (player_y g1) <> Ok true ->
      player_x g' = player_x g1 /\ player_y g' = player_y g1).
Proof.
  intros Hkey g'. subst g'.
  pose proof (commit_after_key key g g1 Hkey) as Hc.
  destruct (point_in_wall (player_x g1) (player_y g1)) as [[|]|e].
  - destruct (update_after_commit _ _ _ Hc) as [scr ->].
    split; [intros _; split; reflexivity | intros H; now destruct H].
  - destruct (update_after_commit _ _ _ Hc) as [scr ->].
    split; [discriminate | intros _; split; reflexivity].
  - rewrite (update_commit_raises _ _ _ _ Hc).
    split; [discriminate | intros _; split; reflexivity].
Qed.

End UpdateFacts.

(** ** C2: the collision invariant *)

Section Collision.

Variable L : Libm.

Lemma free_set_screen (g : Game) (scr : list row) :
  free (set_screen g scr) <-> free g.
Proof. reflexivity. Qed.

(** The collision check commits free positions only. *)
Lemma commit_free (key : string) (g g2 : Game) :
  free g -> commit L key g = (g2, Ok tt) -> free g2.
Proof.
  intros Hfree Hc.
  destruct (apply_key L key g) as [g1 [[]|e]] eqn:Hkey.
  - rewrite (commit_after_key L key g g1 Hkey) in Hc.
    destruct (point_in_wall (player_x g1) (player_y g1))
      as [[|]|e] eqn:Hhit; inversion Hc; subst g2.
    + exact Hfree.
    + exact Hhit.
  - rewrite (commit_key_raises L key g g1 e Hkey) in Hc. discriminate.
Qed.

(** Whatever the drawing does after a successful check, the position
    stays free. *)
Lemma update_free_after_commit (key : string) (g g2 : Game) :
  free g -> commit L key g = (g2, Ok tt) -> free (fst (update L key g)).
Proof.
  intros Hfree Hc.
  destruct (update_after_commit L key g g2 Hc) as [scr ->].
  apply free_set_screen. exact (commit_free key g g2 Hfree Hc).
Qed.

Lemma update_free (key : string) (g g' : Game) :
  free g -> update L key g = (g', Ok tt) -> free g'.
Proof.
  intros Hfree Hu.
  destruct (commit L key g) as [g2 [[]|e]] eqn:Hc.
  - pose proof (update_free_after_commit key g g2 Hfree Hc) as H.
    rewrite Hu in H. exact H.
  - rewrite (update_commit_raises L key g g2 e Hc) in Hu. discriminate.
Qed.

Lemma run_free (keys : list string) (g : Game) :
  free g -> snd (run L keys g) = Ok tt -> free (fst (run L keys g)).
Proof.
  revert g. induction keys as [|key rest IH]; intros g Hfree Hrun.
  - exact Hfree.
  - cbn [run] in *. unfold bindM in *.
    destruct (update L key g) as [g1 [[]|e]] eqn:Hu.
    + apply IH; [exact (update_free key g g1 Hfree Hu) | exact Hrun].
    + discriminate.
Qed.

(** C2: from a free position, the position is free after every sequence
    of commands that ran to completion; a move that lands in a wall is
    undone to the exact position before the move, a move that lands
    outside walls is kept, and the angle the key produced is kept in both
    cases. *)
Theorem C2_collision_invariant (keys : list string) (g : Game) :
  free g ->
  (snd (run L keys g) = Ok tt -> free (fst (run L keys g)))
  /\ (forall key g1, apply_key L key g = (g1, Ok tt) ->
      let g' := fst (update L key g) in
      player_angle g' = player_angle g1
      /\ (point_in_wall (player_x g1) (player_y g1) = Ok true ->
          player_x g' = player_x g /\ player_y g' = player_y g /\ free g')
      /\ (point_in_wall (player_x g1) (player_y g1) = Ok false ->
          player_x g' = player_x g1 /\ player_y g' = player_y g1
          /\ free g')).
Proof.
  intros Hfree. split; [apply run_free; exact Hfree|].
  intros key g1 Hkey g'. subst g'.
  split; [exact (update_angle L key g g1 Hkey)|].
  destruct (update_position L key g g1 Hkey) as [Hback Hkeep].
  pose proof (commit_after_key L key g g1 Hkey) as Hc.
  split; intros Hhit; rewrite Hhit in Hc.
  - destruct (Hback Hhit) as [Hx Hy]. repeat split; try assumption.
    exact (update_free_after_commit key g _ Hfree Hc).
  - assert (Hne : point_in_wall (player_x g1) (player_y g1) <> Ok true)
      by (rewrite Hhit; discriminate).
    destruct (Hkeep Hne) as [Hx Hy]. repeat split; try assumption.
    exact (update_free_after_commit key g _ Hfree Hc).
Qed.

End Collision.

(** ** C6: the four movement keys *)

Section Moves.

Variable L : Libm.

(** C6: [w] adds the forward vector [(cos(angle)*STEP_SIZE,
    -sin(angle)*STEP_SIZE)] to the position and [s] subtracts it, unless
    the new position is in a wall, in which case the position is the one
    before the key; [a] adds [STEP_SIZE] to the angle and [d] subtracts
    it, always, and neither changes the position. *)
Theorem C6_update_moves (g : Game) :
  (forall c s,
      math_cos L (player_angle g) = Ok c ->
      math_sin L (player_angle g) = Ok s ->
      let x' := (player_x g + c * STEP_SIZE)%float in
      let y' := (player_y g + - s * STEP_SIZE)%float in
      let g' := fst (update L "w" g) in
      player_angle g' = player_angle g
      /\ (point_in_wall x' y' = Ok true ->
          player_x g' = player_x g /\ player_y g' = player_y g)
      /\ (point_in_wall x' y' <> Ok true ->
          player_x g' = x' /\ player_y g' = y'))
  /\ (forall c s,
      math_cos L (player_angle g) = Ok c ->
      math_sin L (player_angle g) = Ok s ->
      let x' := (player_x g - c * STEP_SIZE)%float in
      let y' := (player_y g - - s * STEP_SIZE)%float in
      let g' := fst (update L "s" g) in
      player_angle g' = player_angle g
      /\ (point_in_wall x' y' = Ok true ->
          player_x g' = player_x g /\ player_y g' = player_y g)
      /\ (point_in_wall x' y' <> Ok true ->
          player_x g' = x' /\ player_y g' = y'))
  /\ (let g' := fst (update L "a" g) in
      player_angle g' = (player_angle g + STEP_SIZE)%float
      /\ player_x g' = player_x g /\ player_y g' = player_y g)
  /\ (let g' := fst (update L "d" g) in
      player_angle g' = (player_angle g - STEP_SIZE)%float
      /\ player_x g' = player_x g /\ player_y g' = player_y g).
Proof.
  split; [|split; [|split]].
  - intros c s Hc Hs x' y' g'. subst g'.
    pose proof (apply_key_w L g c s Hc Hs) as Hkey.
    split; [rewrite (update_angle L _ _ _ Hkey); reflexivity|].
    exact (update_position L _ _ _ Hkey).
  - intros c s Hc Hs x' y' g'. subst g'.
    pose proof (apply_key_s L g c s Hc Hs) as Hkey.
    split; [rewrite (update_angle L _ _ _ Hkey); reflexivity|].
    exact (update_position L _ _ _ Hkey).
  - intros g'. subst g'. pose proof (apply_key_a L g) as Hkey.
    split; [rewrite (update_angle L _ _ _ Hkey); reflexivity|].
    destruct (update_position L _ _ _ Hkey) as [Hback Hkeep].
    cbn [player_x player_y set_player_angle] in Hback, Hkeep.
    destruct (point_in_wall (player_x g) (player_y g)) as [[|]|e];
      [apply Hback; reflexivity | apply Hkeep; discriminate
       | apply Hkeep; discriminate].
  - intros g'. subst g'. pose proof (apply_key_d L g) as Hkey.
    split; [rewrite (update_angle L _ _ _ Hkey); reflexivity|].
    destruct (update_position L _ _ _ Hkey) as [Hback Hkeep].
    cbn [player_x player_y set_player_angle] in Hback, Hkeep.
    destruct (point_in_wall (player_x g) (player_y g)) as [[|]|e];
      [apply Hback; reflexivity | apply Hkeep; discriminate
       | apply Hkeep; discriminate].
Qed.

End Moves.

(** ** The screen buffer: rows, columns and [draw_line] *)

Lemma enumerate_from {A B : Type} (F : Z * A -> B) (xs : list A) (k : nat) :
  map F (combine (map Z.of_nat (seq k (List.length xs))) xs)
  = imap (fun i x => F (Z.of_nat (k + i), x)) xs.
Proof.
  revert k. induction xs as [|x xs IH]; intros k; [reflexivity|].
  cbn [List.length seq map combine imap]. f_equal.
  - rewrite Nat.add_0_r. reflexivity.
  - rewrite IH. apply imap_ext. intros i y _. cbn.
    rewrite Nat.add_succ_r. reflexivity.
Qed.

(** A map over [enumerate(xs)] is an indexed map over [xs]. *)
Lemma map_enumerate {A B : Type} (F : Z * A -> B) (xs : list A) :
  map F (enumerate xs) = imap (fun i x => F (Z.of_nat i, x)) xs.
Proof.
  unfold enumerate, range. rewrite Nat2Z.id. apply (enumerate_from F xs 0).
Qed.

Lemma in_range_glyph (vh offset : Z) (shadow : bool) (num : Z) :
  (if in_range num (offset + 1) (vh - offset)
   then (if negb shadow then "#"%char else "+"%char) else " "%char)
  = glyph vh offset shadow num.
Proof.
  unfold in_range, glyph.
  replace (offset + 1 <=? num) with (offset <? num)
    by (destruct (Z.ltb_spec offset num), (Z.leb_spec (offset + 1) num);
        (reflexivity || lia)).
  destruct ((offset <? num) && (num <? vh - offset)), shadow; reflexivity.
Qed.

(** Inside a row, the two slices around column [x] and the new character
    make the row with column [x] replaced. *)
Lemma draw_row_insert (vh offset x : Z) (shadow : bool) (num : Z) (r : row) :
  0 <= x < Z.of_nat (List.length r) ->
  draw_row vh offset x shadow num r
  = <[Z.to_nat x := glyph vh offset shadow num]> r.
Proof.
  intros Hx. rewrite <- in_range_glyph. unfold draw_row.
  assert (Hto : slice_to r x = take (Z.to_nat x) r).
  { unfold slice_to, slice_bound.
    destruct (Z.ltb_spec x 0); [lia|]. rewrite Z.min_l by lia. reflexivity. }
  assert (Hfrom : slice_from r (x + 1) = drop (S (Z.to_nat x)) r).
  { unfold slice_from, slice_bound.
    destruct (Z.ltb_spec (x + 1) 0); [lia|]. rewrite Z.min_l by lia.
    replace (Z.to_nat (x + 1)) with (S (Z.to_nat x)) by lia. reflexivity. }
  rewrite Hto, Hfrom.
  destruct (in_range num (offset + 1) (vh - offset));
    symmetry; apply insert_take_drop; lia.
Qed.

Lemma draw_line_ok (x height offset : Z) (shadow : bool) (g : Game) :
  line_offset (VH g) height = Ok offset ->
  draw_line x height shadow g
  = (set_screen g (draw_screen (VH g) offset x shadow (screen g)), Ok tt).
Proof.
  intros Hoff. unfold draw_line, bindM, gets, lift, modify. rewrite Hoff.
  cbn. rewrite map_enumerate. reflexivity.
Qed.

Lemma draw_line_raises (x height : Z) (shadow : bool) (g : Game) (e : exn) :
  line_offset (VH g) height = Raise e ->
  draw_line x height shadow g = (g, Raise e).
Proof.
  intros Hoff. unfold draw_line, bindM, gets, lift. rewrite Hoff.
  reflexivity.
Qed.

Lemma draw_screen_lookup (vh offset x : Z) (shadow : bool) (scr : list row)
    (w : nat) (num : nat) :
  Forall (fun r : row => List.length r = w) scr ->
  0 <= x < Z.of_nat w ->
  draw_screen vh offset x shadow scr !! num
  = (fun r => <[Z.to_nat x := glyph vh offset shadow (Z.of_nat num)]> r)
      <$> scr !! num.
Proof.
  intros Hrows Hx. unfold draw_screen. rewrite list_lookup_imap.
  destruct (scr !! num) as [r|] eqn:Hr; [|reflexivity]. cbn. f_equal.
  apply draw_row_insert.
  rewrite (Forall_lookup_1 _ _ _ _ Hrows Hr). exact Hx.
Qed.

Lemma draw_screen_shape (vh offset x : Z) (shadow : bool) (scr : list row)
    (w : nat) :
  Forall (fun r : row => List.length r = w) scr ->
  0 <= x < Z.of_nat w ->
  List.length (draw_screen vh offset x shadow scr) = List.length scr
  /\ Forall (fun r : row => List.length r = w)
            (draw_screen vh offset x shadow scr).
Proof.
  intros Hrows Hx. split; [apply length_imap|].
  apply Forall_lookup_2. intros num r' Hr'.
  rewrite (draw_screen_lookup vh offset x shadow scr w num Hrows Hx) in Hr'.
  destruct (scr !! num) as [r|] eqn:Hr; [|discriminate].
  cbn in Hr'. inversion Hr'; subst r'. cbn beta. rewrite length_insert.
  exact (Forall_lookup_1 _ _ _ _ Hrows Hr).
Qed.

(** *** The offset on terminal-sized arguments

    For [|vh - height| <= 2000] the float quotient is exact, and the offset
    is the integer floor of the half.  (Beyond 2^53 the float quotient is
    rounded.) *)
Lemma line_offset_small (vh height : Z) :
  Z.abs (vh - height) <= 2000 ->
  line_offset vh height = Ok (offset_spec vh height).
Proof.
  intros Hsmall. unfold line_offset, offset_spec.
  set (n := vh - height) in *.
  set (ok := fun k : nat =>
         match (f <- int_truediv_2 (Z.of_nat k - 2000) ;; floor f) with
         | Ok z => z =? (Z.of_nat k - 2000) / 2
         | Raise _ => false
         end).
  assert (Hall : forallb ok (seq 0 4001) = true) by (vm_compute; reflexivity).
  rewrite forallb_forall in Hall.
  specialize (Hall (Z.to_nat (n + 2000))).
  assert (Hin : In (Z.to_nat (n + 2000)) (seq 0 4001)) by (apply in_seq; lia).
  specialize (Hall Hin). unfold ok in Hall.
  replace (Z.of_nat (Z.to_nat (n + 2000)) - 2000) with n in Hall by lia.
  destruct (f <- int_truediv_2 n;; floor f) as [z|e]; [|discriminate].
  apply Z.eqb_eq in Hall. subst z. reflexivity.
Qed.

(** ** C10: [draw_line] touches one column *)

(** C10: for a column [x] of the viewport, [draw_line] leaves the screen
    with its [VH] rows of [VW] characters, changes no character outside
    column [x], and assigns nothing but the screen. *)
Theorem C10_draw_line_frame (g : Game) (x height : Z) (shadow : bool) :
  0 <= x < VW g ->
  wf_screen g ->
  let g' := fst (draw_line x height shadow g) in
  (exists scr, g' = set_screen g scr)
  /\ List.length (screen g') = Z.to_nat (VH g)
  /\ Forall (fun r : row => List.length r = Z.to_nat (VW g)) (screen g')
  /\ forall num c : nat,
       c <> Z.to_nat x ->
       char_at (screen g') num c = char_at (screen g) num c.
Proof.
  intros Hx [Hrows Hcols] g'. subst g'.
  split; [apply draw_line_frame|].
  destruct (line_offset (VH g) height) as [offset|e] eqn:Hoff.
  - rewrite (draw_line_ok x height offset shadow g Hoff).
    cbn [fst screen set_screen].
    assert (Hx' : 0 <= x < Z.of_nat (Z.to_nat (VW g))) by lia.
    destruct (draw_screen_shape (VH g) offset x shadow (screen g)
                (Z.to_nat (VW g)) Hcols Hx') as [Hlen Hall].
    split; [rewrite Hlen; exact Hrows|]. split; [exact Hall|].
    intros num c Hc. unfold char_at.
    rewrite (draw_screen_lookup (VH g) offset x shadow (screen g)
               (Z.to_nat (VW g)) num Hcols Hx').
    destruct (screen g !! num) as [r|]; [|reflexivity]. cbn.
    apply list_lookup_insert_ne. congruence.
  - rewrite (draw_line_raises x height shadow g e Hoff). cbn [fst].
    split; [exact Hrows|]. split; [exact Hcols|]. reflexivity.
Qed.

(** ** C7: what [draw_line] writes in its column *)

(** C7: with [offset = math.floor((VH - height) / 2)], [draw_line] writes
    at column [x] of every row [num] the wall glyph ([#], or [+] when
    shadowed) if [offset < num < VH - offset] and a blank otherwise; on
    terminal-sized arguments the offset is the exact floor of the half
    difference. *)
Theorem C7_draw_line_column (g : Game) (x height offset : Z)
    (shadow : bool) :
  wf_screen g ->
  0 <= x < VW g ->
  line_offset (VH g) height = Ok offset ->
  snd (draw_line x height shadow g) = Ok tt
  /\ (forall num : nat,
       (num < Z.to_nat (VH g))%nat ->
       char_at (screen (fst (draw_line x height shadow g))) num (Z.to_nat x)
       = Some (if (offset <? Z.of_nat num) && (Z.of_nat num <? VH g - offset)
               then (if shadow then "+"%char else "#"%char)
               else " "%char))
  /\ (Z.abs (VH g - height) <= 2000 -> offset = (VH g - height) / 2).
Proof.
  intros [Hrows Hcols] Hx Hoff.
  rewrite (draw_line_ok x height offset shadow g Hoff).
  cbn [fst snd screen set_screen]. split; [reflexivity|]. split.
  - intros num Hnum. unfold char_at.
    assert (Hx' : 0 <= x < Z.of_nat (Z.to_nat (VW g))) by lia.
    rewrite (draw_screen_lookup (VH g) offset x shadow (screen g)
               (Z.to_nat (VW g)) num Hcols Hx').
    destruct (lookup_lt_is_Some_2 (screen g) num) as [r Hr]; [lia|].
    rewrite Hr. cbn.
    rewrite list_lookup_insert_eq; [reflexivity|].
    rewrite (Forall_lookup_1 _ _ _ _ Hcols Hr). lia.
  - intros Hsmall. pose proof (line_offset_small (VH g) height Hsmall) as H.
    rewrite Hoff in H. inversion H. reflexivity.
Qed.

(** ** [get_view]: one tuple per column *)

Lemma list_assign_insert {A : Type} (xs : list A) (i : nat) (v : A) :
  (i < List.length xs)%nat ->
  list_assign xs (Z.of_nat i) v = Ok (<[i := v]> xs).
Proof.
  intros Hi. unfold list_assign.
  destruct (Z.ltb_spec (Z.of_nat i) 0); [lia|].
  destruct (Z.ltb_spec (Z.of_nat i) 0); [lia|].
  destruct (Z.leb_spec (Z.of_nat (List.length xs)) (Z.of_nat i)); [lia|].
  cbn [orb]. rewrite Nat2Z.id. f_equal. symmetry.
  apply insert_take_drop. exact Hi.
Qed.

Lemma traverse_length {A B : Type} (f : A -> result B) (xs : list A)
    (bs : list B) :
  traverse f xs = Ok bs -> List.length bs = List.length xs.
Proof.
  revert bs. induction xs as [|x xs IH]; intros bs H; cbn in H.
  - inversion H. reflexivity.
  - destruct (f x) as [b|e]; [|discriminate]. cbn in H.
    destruct (traverse f xs) as [bs'|e]; [|discriminate]. cbn in H.
    inversion H. cbn. f_equal. apply IH. reflexivity.
Qed.

Lemma traverse_lookup {A B : Type} (f : A -> result B) (xs : list A)
    (bs : list B) :
  traverse f xs = Ok bs <->
  List.length bs = List.length xs
  /\ forall i x, xs !! i = Some x -> exists b, bs !! i = Some b /\ f x = Ok b.
Proof.
  revert bs. induction xs as [|x xs IH]; intros bs; cbn [traverse].
  - split.
    + intros H; inversion H. split; [reflexivity|]. intros i x Hx.
      rewrite lookup_nil in Hx. discriminate.
    + intros [Hlen _]. destruct bs; [reflexivity|discriminate].
  - split.
    + intros H. destruct (f x) as [b|e] eqn:Hfx; [|discriminate].
      cbn in H. destruct (traverse f xs) as [bs'|e] eqn:Htr; [|discriminate].
      cbn in H. inversion H; subst bs.
      destruct (proj1 (IH bs') eq_refl) as [Hlen Hall].
      split; [cbn; f_equal; exact Hlen|].
      intros [|i] y Hy; cbn in Hy.
      * inversion Hy; subst y. exists b. split; [reflexivity|exact Hfx].
      * exact (Hall i y Hy).
    + intros [Hlen Hall]. destruct bs as [|b bs']; [discriminate|].
      destruct (Hall 0%nat x eq_refl) as (b0 & Hb0 & Hfx).
      cbn in Hb0. inversion Hb0; subst b0. rewrite Hfx. cbn.
      assert (Htr : traverse f xs = Ok bs').
      { apply IH. split; [cbn in Hlen; lia|].
        intros i y Hy. exact (Hall (S i) y Hy). }
      rewrite Htr. reflexivity.
Qed.

Section View.

Variable L : Libm.

(** The loop over [range(k, k+m)] fills the entries [k .. k+m-1]. *)
Lemma get_view_loop_seq (g : Game) (sa : float) (m k : nat)
    (walls : list pyval) :
  (k + m = List.length walls)%nat ->
  get_view_loop L g sa (map Z.of_nat (seq k m)) walls
  = (cols <- traverse (view_column L g sa) (map Z.of_nat (seq k m)) ;;
     Ok (take k walls ++ map tuple_val cols)).
Proof.
  revert k walls. induction m as [|m IH]; intros k walls Hlen.
  - cbn. rewrite Nat.add_0_r in Hlen. rewrite Hlen, firstn_all, app_nil_r.
    reflexivity.
  - cbn [seq map get_view_loop traverse].
    destruct (view_column L g sa (Z.of_nat k)) as [hs|e]; [|reflexivity].
    cbn [bind]. rewrite list_assign_insert by lia. cbn [bind].
    rewrite IH by (rewrite length_insert; lia).
    destruct (traverse (view_column L g sa) (map Z.of_nat (seq (S k) m)))
      as [cols|e]; [|reflexivity].
    cbn [bind map]. f_equal.
    rewrite (take_S_r _ _ (tuple_val hs))
      by (apply list_lookup_insert_eq; lia).
    rewrite take_insert_ge by lia. rewrite <- app_assoc. reflexivity.
Qed.

(** [get_view] is its columns, each stored as a tuple. *)
Lemma get_view_columns (g : Game) :
  get_view L g = (cols <- columns L g ;; Ok (map tuple_val cols)).
Proof.
  unfold get_view, columns, range.
  rewrite repeat_length, Nat2Z.id.
  rewrite get_view_loop_seq by (rewrite repeat_length; lia).
  reflexivity.
Qed.

End View.

(** ** C4: the projected columns *)

(** On a non-negative double, truncation and floor agree. *)
Lemma int_floor_nonneg (q : float) :
  PrimFloat.leb 0 q = true -> int q = floor q.
Proof.
  intros Hq. rewrite FloatAxioms.leb_spec in Hq. unfold int, floor, float_to_int.
  change (Prim2SF 0) with (S754_zero false) in Hq.
  destruct (Prim2SF q) as [s|s| |s m e]; try reflexivity.
  destruct s; [discriminate|]. f_equal.
  unfold SF_num, SF_den, cond_Zopp.
  apply Z.quot_div_nonneg; [|lia].
  apply Z.mul_nonneg_nonneg; [lia|]. apply Z.pow_nonneg. lia.
Qed.

Lemma range_lookup (n : Z) (i : nat) (x : Z) :
  range n !! i = Some x <-> x = Z.of_nat i /\ (i < Z.to_nat n)%nat.
Proof.
  unfold range. rewrite list_lookup_fmap. split.
  - intros H. destruct (seq 0 (Z.to_nat n) !! i) as [j|] eqn:Hj;
      [|discriminate].
    apply lookup_seq in Hj. cbn in H. inversion H. lia.
  - intros [-> Hi].
    rewrite (proj2 (lookup_seq 0 (Z.to_nat n) i i)) by lia. reflexivity.
Qed.

Section Projection.

Variable L : Libm.

Lemma clamp_min (height vh : Z) :
  (if height >? vh then vh else height) = Z.min height vh.
Proof. destruct (Z.gtb_spec height vh); lia. Qed.

Lemma view_column_formula (g : Game) (idx height : Z) (shadow : bool) :
  view_column L g (player_angle g + HALF_FOV) idx = Ok (height, shadow)
  <-> column_formula L g idx height shadow.
Proof.
  unfold view_column, cast_angle, project, column_formula. split.
  - intros H.
    destruct (float_of_int idx) as [fi|e]; [|discriminate]. cbn [bind] in H.
    destruct (horizontal_intersection L g _) as [h_dist|e] eqn:Hh;
      [|discriminate]. cbn [bind] in H.
    destruct (vertical_intersection L g _) as [v_dist|e] eqn:Hv;
      [|discriminate]. cbn [bind] in H.
    destruct (nearer h_dist v_dist) as [min_dist sh] eqn:Hn.
    destruct (math_cos L _) as [c|e] eqn:Hc; [|discriminate].
    cbn [bind] in H.
    destruct (float_of_int (WALL_HEIGHT g)) as [wh|e]; [|discriminate].
    cbn [bind] in H.
    destruct (truediv wh (min_dist * c)) as [q|e] eqn:Hq; [|discriminate].
    cbn [bind] in H.
    destruct (int q) as [hq|e] eqn:Hint; [|discriminate]. cbn [bind] in H.
    rewrite clamp_min in H. inversion H; subst.
    exists fi, h_dist, v_dist, c, wh, q, hq. cbn zeta.
    rewrite Hh, Hv, Hc, Hn. cbn [fst snd].
    rewrite Hq. repeat split; assumption.
  - intros (fi & h_dist & v_dist & c & wh & q & hq & Hfi & H).
    cbn zeta in H.
    destruct H as (Hh & Hv & Hc & Hwh & Hq & Hint & -> & ->).
    rewrite Hfi. cbn [bind]. rewrite Hh. cbn [bind]. rewrite Hv.
    cbn [bind]. destruct (nearer h_dist v_dist) as [min_dist sh].
    cbn [fst snd] in *. rewrite Hc. cbn [bind]. rewrite Hwh. cbn [bind].
    rewrite Hq. cbn [bind]. rewrite Hint. cbn [bind].
    rewrite clamp_min. reflexivity.
Qed.

(** [get_view] returns [walls] exactly when [walls] has one entry per
    column and each entry is the tuple of its column. *)
Lemma get_view_spec (g : Game) (walls : list pyval) :
  get_view L g = Ok walls <->
  List.length walls = Z.to_nat (VW g)
  /\ forall idx : nat, (idx < Z.to_nat (VW g))%nat ->
       exists height shadow,
         walls !! idx = Some (PTuple height shadow)
         /\ column_formula L g (Z.of_nat idx) height shadow.
Proof.
  rewrite get_view_columns. unfold columns.
  assert (Hrange : List.length (range (VW g)) = Z.to_nat (VW g)).
  { unfold range. rewrite length_map, length_seq. reflexivity. }
  split.
  - intros H.
    destruct (traverse _ (range (VW g))) as [cols|e] eqn:Htr;
      [|discriminate].
    cbn [bind] in H. inversion H; subst walls.
    apply traverse_lookup in Htr. destruct Htr as [Hlen Hall].
    split; [rewrite length_map; congruence|].
    intros idx Hidx.
    destruct (Hall idx (Z.of_nat idx)) as ([height shadow] & Hb & Hcol).
    { apply range_lookup. split; [reflexivity|exact Hidx]. }
    exists height, shadow. split.
    + rewrite list_lookup_fmap, Hb. reflexivity.
    + apply view_column_formula. exact Hcol.
  - intros [Hlen Hall].
    set (untuple := fun w => match w with
                             | PTuple h s => (h, s)
                             | PInt _ => (0, false)
                             end).
    assert (Htr : traverse (view_column L g (player_angle g + HALF_FOV))
                    (range (VW g)) = Ok (map untuple walls)).
    { apply traverse_lookup. split; [rewrite length_map; congruence|].
      intros i x Hx. apply range_lookup in Hx. destruct Hx as [-> Hi].
      destruct (Hall i Hi) as (height & shadow & Hw & Hcol).
      exists (height, shadow). split.
      - rewrite list_lookup_fmap, Hw. reflexivity.
      - apply view_column_formula. exact Hcol. }
    rewrite Htr. cbn [bind]. f_equal.
    apply list_eq. intros i. rewrite !list_lookup_fmap.
    destruct (walls !! i) as [w|] eqn:Hw; [|reflexivity].
    assert (Hi : (i < Z.to_nat (VW g))%nat).
    { rewrite <- Hlen. eapply lookup_lt_Some. exact Hw. }
    destruct (Hall i Hi) as (height & shadow & Hw' & _).
    rewrite Hw in Hw'. inversion Hw'; subst w. reflexivity.
Qed.

End Projection.

(** ** The drawing loop as a function of the screen *)

Lemma draw_all_paint (cols : list (Z * pyval)) (g : Game) :
  fst (draw_all cols g) = set_screen g (paint (VH g) cols (screen g)).
Proof.
  revert g. induction cols as [|[x [n|height shadow]] rest IH]; intros g;
    cbn [draw_all paint].
  - symmetry; apply set_screen_id.
  - symmetry; apply set_screen_id.
  - unfold bindM.
    destruct (line_offset (VH g) height) as [offset|e] eqn:Hoff.
    + rewrite (draw_line_ok x height offset shadow g Hoff).
      rewrite IH. reflexivity.
    + rewrite (draw_line_raises x height shadow g e Hoff).
      symmetry; apply set_screen_id.
Qed.

(** Whether the loop raises depends on the heights and on [VH] only. *)
Lemma draw_all_outcome (cols : list (Z * pyval)) (g g' : Game) :
  VH g = VH g' -> snd (draw_all cols g) = snd (draw_all cols g').
Proof.
  revert g g'. induction cols as [|[x [n|height shadow]] rest IH];
    intros g g' Hvh; cbn [draw_all]; try reflexivity.
  unfold bindM.
  destruct (line_offset (VH g) height) as [offset|e] eqn:Hoff.
  - rewrite (draw_line_ok x height offset shadow g Hoff).
    assert (Hoff' : line_offset (VH g') height = Ok offset)
      by (rewrite <- Hvh; exact Hoff).
    rewrite (draw_line_ok x height offset shadow g' Hoff').
    apply IH. exact Hvh.
  - rewrite (draw_line_raises x height shadow g e Hoff).
    assert (Hoff' : line_offset (VH g') height = Raise e)
      by (rewrite <- Hvh; exact Hoff).
    rewrite (draw_line_raises x height shadow g' e Hoff'). reflexivity.
Qed.

Lemma draw_screen_agree (vh offset : Z) (shadow : bool) (w k : nat)
    (scr scr' : list row) :
  Forall (fun r : row => List.length r = w) scr ->
  Forall (fun r : row => List.length r = w) scr' ->
  (k < w)%nat ->
  agree k scr scr' ->
  agree (S k) (draw_screen vh offset (Z.of_nat k) shadow scr)
              (draw_screen vh offset (Z.of_nat k) shadow scr').
Proof.
  intros Hs Hs' Hk [Hlen Hag].
  assert (Hx : 0 <= Z.of_nat k < Z.of_nat w) by lia.
  split.
  - unfold draw_screen. rewrite !length_imap. exact Hlen.
  - intros num c Hc. unfold char_at.
    rewrite !(draw_screen_lookup vh offset (Z.of_nat k) shadow _ w num)
      by assumption.
    rewrite Nat2Z.id.
    destruct (scr !! num) as [r|] eqn:Hr.
    + destruct (lookup_lt_is_Some_2 scr' num) as [r' Hr'].
      { rewrite <- Hlen. eapply lookup_lt_Some. exact Hr. }
      rewrite Hr'. cbn.
      destruct (Nat.eq_dec c k) as [->|Hne].
      * rewrite !list_lookup_insert_eq; [reflexivity| |].
        -- rewrite (Forall_lookup_1 _ _ _ _ Hs' Hr'). exact Hk.
        -- rewrite (Forall_lookup_1 _ _ _ _ Hs Hr). exact Hk.
      * rewrite !list_lookup_insert_ne by congruence.
        specialize (Hag num c ltac:(lia)). unfold char_at in Hag.
        rewrite Hr, Hr' in Hag. exact Hag.
    + assert (Hr' : scr' !! num = None).
      { apply lookup_ge_None. rewrite <- Hlen.
        apply lookup_ge_None. exact Hr. }
      rewrite Hr'. reflexivity.
Qed.

(** Screens of width [w] that agree on all [w] columns are equal. *)
Lemma agree_all (w : nat) (scr scr' : list row) :
  Forall (fun r : row => List.length r = w) scr ->
  Forall (fun r : row => List.length r = w) scr' ->
  agree w scr scr' -> scr = scr'.
Proof.
  intros Hs Hs' [Hlen Hag]. apply list_eq. intros num.
  destruct (scr !! num) as [r|] eqn:Hr.
  - destruct (lookup_lt_is_Some_2 scr' num) as [r' Hr'].
    { rewrite <- Hlen. eapply lookup_lt_Some. exact Hr. }
    rewrite Hr'. f_equal. apply list_eq. intros c.
    pose proof (Forall_lookup_1 _ _ _ _ Hs Hr) as Hw.
    pose proof (Forall_lookup_1 _ _ _ _ Hs' Hr') as Hw'.
    cbn beta in Hw, Hw'.
    destruct (Nat.lt_ge_cases c w) as [Hc|Hc].
    + specialize (Hag num c Hc). unfold char_at in Hag.
      rewrite Hr, Hr' in Hag. exact Hag.
    + rewrite (proj2 (lookup_ge_None r c)) by lia.
      rewrite (proj2 (lookup_ge_None r' c)) by lia. reflexivity.
  - symmetry. apply lookup_ge_None. rewrite <- Hlen.
    apply lookup_ge_None. exact Hr.
Qed.

Lemma draw_all_drawable (ws : list pyval) (idxs : list Z) (g : Game) :
  List.length idxs = List.length ws ->
  snd (draw_all (combine idxs ws) g) = Ok tt ->
  Forall (drawable (VH g)) ws.
Proof.
  revert idxs g. induction ws as [|w ws IH]; intros idxs g Hlen Hok.
  - constructor.
  - destruct idxs as [|x idxs]; [discriminate|].
    cbn [combine draw_all] in Hok.
    destruct w as [n|height shadow]; [discriminate|].
    unfold bindM in Hok.
    destruct (line_offset (VH g) height) as [offset|e] eqn:Hoff.
    + rewrite (draw_line_ok x height offset shadow g Hoff) in Hok.
      constructor.
      * exists height, shadow, offset. split; [reflexivity|exact Hoff].
      * apply (IH idxs _ ltac:(cbn in Hlen; lia) Hok).
    + rewrite (draw_line_raises x height shadow g e Hoff) in Hok.
      discriminate.
Qed.

Lemma draw_all_succeeds (ws : list pyval) (idxs : list Z) (g : Game) :
  List.length idxs = List.length ws ->
  Forall (drawable (VH g)) ws ->
  snd (draw_all (combine idxs ws) g) = Ok tt.
Proof.
  revert idxs g. induction ws as [|w ws IH]; intros idxs g Hlen Hall.
  - destruct idxs; reflexivity.
  - destruct idxs as [|x idxs]; [discriminate|].
    inversion Hall as [|? ? (height & shadow & offset & -> & Hoff) Hrest];
      subst.
    cbn [combine draw_all]. unfold bindM.
    rewrite (draw_line_ok x height offset shadow g Hoff).
    apply IH; [cbn in Hlen; lia | exact Hrest].
Qed.

(** Painting the columns [k .. w-1] of two screens of width [w] that
    agree before column [k] gives the same screen. *)
Lemma paint_agree (vh : Z) (w : nat) (ws : list pyval) :
  forall (k : nat) (scr scr' : list row),
    (k + List.length ws = w)%nat ->
    Forall (fun r : row => List.length r = w) scr ->
    Forall (fun r : row => List.length r = w) scr' ->
    agree k scr scr' ->
    Forall (drawable vh) ws ->
    paint vh (combine (map Z.of_nat (seq k (List.length ws))) ws) scr
    = paint vh (combine (map Z.of_nat (seq k (List.length ws))) ws) scr'.
Proof.
  induction ws as [|wv ws IH]; intros k scr scr' Hk Hs Hs' Hag Hall.
  - cbn. cbn in Hk. rewrite Nat.add_0_r in Hk. subst k.
    exact (agree_all w scr scr' Hs Hs' Hag).
  - inversion Hall as [|? ? (height & shadow & offset & -> & Hoff) Hrest];
      subst.
    cbn [List.length seq map combine paint]. rewrite Hoff.
    assert (Hx : 0 <= Z.of_nat k < Z.of_nat (k + List.length (PTuple height shadow :: ws)))
      by (cbn [List.length]; lia).
    apply IH.
    + cbn [List.length]. lia.
    + exact (proj2 (draw_screen_shape vh offset _ shadow scr _ Hs Hx)).
    + exact (proj2 (draw_screen_shape vh offset _ shadow scr' _ Hs' Hx)).
    + apply (draw_screen_agree vh offset shadow _ k scr scr' Hs Hs');
        [cbn [List.length]; lia | exact Hag].
    + exact Hrest.
Qed.

(** Painting columns inside the width keeps the shape of the screen. *)
Lemma paint_shape (vh : Z) (w : nat) (ws : list pyval) :
  forall (k : nat) (scr : list row),
    (k + List.length ws <= w)%nat ->
    Forall (fun r : row => List.length r = w) scr ->
    List.length
      (paint vh (combine (map Z.of_nat (seq k (List.length ws))) ws) scr)
    = List.length scr
    /\ Forall (fun r : row => List.length r = w)
         (paint vh (combine (map Z.of_nat (seq k (List.length ws))) ws) scr).
Proof.
  induction ws as [|wv ws IH]; intros k scr Hk Hs.
  - cbn. split; [reflexivity|exact Hs].
  - cbn [List.length seq map combine paint]. cbn [List.length] in Hk.
    destruct wv as [n|height shadow]; [split; [reflexivity|exact Hs]|].
    destruct (line_offset vh height) as [offset|e];
      [|split; [reflexivity|exact Hs]].
    assert (Hx : 0 <= Z.of_nat k < Z.of_nat w) by lia.
    destruct (draw_screen_shape vh offset _ shadow scr _ Hs Hx)
      as [Hlen Hshape].
    destruct (IH (S k) _ ltac:(lia) Hshape) as [Hlen' Hshape'].
    split; [rewrite Hlen'; exact Hlen | exact Hshape'].
Qed.

(** Drawing the same full set of columns twice is drawing it once. *)
Lemma paint_idempotent (vh : Z) (ws : list pyval) (scr : list row) :
  Forall (fun r : row => List.length r = List.length ws) scr ->
  Forall (drawable vh) ws ->
  paint vh (enumerate ws) (paint vh (enumerate ws) scr)
  = paint vh (enumerate ws) scr.
Proof.
  intros Hs Hall. unfold enumerate, range. rewrite Nat2Z.id.
  destruct (paint_shape vh (List.length ws) ws 0 scr ltac:(lia) Hs)
    as [Hlen Hshape].
  etransitivity.
  - apply (paint_agree vh (List.length ws) ws 0 _ scr); try assumption.
    + lia.
    + split; [exact Hlen|]. intros num c Hc. lia.
    - reflexivity.
Qed.

(** ** The view does not read the screen *)

Ltac step_bind :=
  match goal with
  | |- bind ?r _ = bind ?r _ => destruct r; [cbn [bind] | reflexivity]
  end.

Section ViewFrame.

Variable L : Libm.

Lemma horizontal_march_set_screen (n : nat) (g : Game) (s : list row)
    (up : bool) (dx dy next_x next_y : float) :
  horizontal_march n (set_screen g s) up dx dy next_x next_y
  = horizontal_march n g up dx dy next_x next_y.
Proof.
  revert next_x next_y. induction n as [|n IH]; intros next_x next_y;
    [reflexivity|].
  cbn [horizontal_march player_x player_y set_screen].
  step_bind. destruct a; [reflexivity|apply IH].
Qed.

Lemma vertical_march_set_screen (n : nat) (g : Game) (s : list row)
    (right : bool) (dx dy next_x next_y : float) :
  vertical_march n (set_screen g s) right dx dy next_x next_y
  = vertical_march n g right dx dy next_x next_y.
Proof.
  revert next_x next_y. induction n as [|n IH]; intros next_x next_y;
    [reflexivity|].
  cbn [vertical_march player_x player_y set_screen].
  step_bind. destruct a; [reflexivity|apply IH].
Qed.

Lemma horizontal_intersection_set_screen (g : Game) (s : list row)
    (angle : float) :
  horizontal_intersection L (set_screen g s) angle
  = horizontal_intersection L g angle.
Proof.
  unfold horizontal_intersection. cbn [player_x player_y set_screen].
  repeat step_bind. rewrite horizontal_march_set_screen. reflexivity.
Qed.

Lemma vertical_intersection_set_screen (g : Game) (s : list row)
    (angle : float) :
  vertical_intersection L (set_screen g s) angle
  = vertical_intersection L g angle.
Proof.
  unfold vertical_intersection. cbn [player_x player_y set_screen].
  repeat step_bind. rewrite vertical_march_set_screen. reflexivity.
Qed.

Lemma view_column_set_screen (g : Game) (s : list row) (sa : float)
    (idx : Z) :
  view_column L (set_screen g s) sa idx = view_column L g sa idx.
Proof.
  unfold view_column, cast_angle.
  cbn [ANGLE_STEP set_screen]. step_bind.
  rewrite horizontal_intersection_set_screen,
    vertical_intersection_set_screen.
  reflexivity.
Qed.

Lemma get_view_set_screen (g : Game) (s : list row) :
  get_view L (set_screen g s) = get_view L g.
Proof.
  unfold get_view. cbn [VW player_angle set_screen].
  generalize (range (Z.of_nat (List.length
                (repeat (PInt 0) (Z.to_nat (VW g)))))).
  generalize (repeat (PInt 0) (Z.to_nat (VW g))).
  intros walls idxs. revert walls.
  induction idxs as [|idx idxs IH]; intros walls; [reflexivity|].
  cbn [get_view_loop]. rewrite view_column_set_screen.
  step_bind. step_bind. apply IH.
Qed.

(** The keys assign the player's position and angle only. *)
Lemma apply_key_frame (key : string) (g : Game) :
  exists x y a,
    fst (apply_key L key g)
    = set_player_angle (set_player_y (set_player_x g x) y) a.
Proof.
  assert (Hid : g = set_player_angle
                      (set_player_y (set_player_x g (player_x g))
                                    (player_y g)) (player_angle g))
    by (destruct g; reflexivity).
  unfold apply_key.
  destruct (String.eqb key "w");
    [|destruct (String.eqb key "s");
      [|destruct (String.eqb key "d");
        [|destruct (String.eqb key "a");
          [|destruct (String.eqb key "q")]]]];
    unfold bindM, gets, lift, modify, retM; cbn.
  - destruct (math_cos L (player_angle g)) as [c|e]; cbn.
    + destruct (math_sin L (player_angle g)) as [s|e]; cbn.
      * exists (player_x g + c * STEP_SIZE)%float,
          (player_y g + - s * STEP_SIZE)%float, (player_angle g).
        reflexivity.
      * exists (player_x g + c * STEP_SIZE)%float, (player_y g),
          (player_angle g).
        reflexivity.
    + eexists _, _, _. exact Hid.
  - destruct (math_cos L (player_angle g)) as [c|e]; cbn.
    + destruct (math_sin L (player_angle g)) as [s|e]; cbn.
      * exists (player_x g - c * STEP_SIZE)%float,
          (player_y g - - s * STEP_SIZE)%float, (player_angle g).
        reflexivity.
      * exists (player_x g - c * STEP_SIZE)%float, (player_y g),
          (player_angle g).
        reflexivity.
    + eexists _, _, _. exact Hid.
  - exists (player_x g), (player_y g), (player_angle g - STEP_SIZE)%float.
    reflexivity.
  - exists (player_x g), (player_y g), (player_angle g + STEP_SIZE)%float.
    reflexivity.
  - eexists _, _, _. exact Hid.
  - eexists _, _, _. exact Hid.
Qed.

Lemma commit_frame (key : string) (g : Game) :
  exists x y a,
    fst (commit L key g)
    = set_player_angle (set_player_y (set_player_x g x) y) a.
Proof.
  destruct (apply_key_frame key g) as (x & y & a & Hk).
  destruct (apply_key L key g) as [g1 [[]|e]] eqn:Hkey; cbn [fst] in Hk.
  - rewrite (commit_after_key L key g g1 Hkey).
    destruct (point_in_wall (player_x g1) (player_y g1)) as [[|]|e];
      cbn [fst]; subst g1.
    + eexists _, _, a. reflexivity.
    + eexists _, _, _. reflexivity.
    + eexists _, _, _. reflexivity.
  - rewrite (commit_key_raises L key g g1 e Hkey). cbn [fst]. subst g1.
    eexists _, _, _. reflexivity.
Qed.

End ViewFrame.

(** ** C8: a key that is not a command *)

Section Idempotence.

Variable L : Libm.

(** Drawing the frame of a state whose screen already shows that frame
    changes nothing. *)
Lemma render_again (g2 g : Game) :
  wf_screen g2 ->
  render L g2 = (g, Ok tt) ->
  render L g = (g, Ok tt).
Proof.
  intros [Hrows Hcols] Hr. unfold render, bindM in Hr.
  destruct (get_view L g2) as [walls|e] eqn:Hview; [|discriminate].
  assert (Hlen : List.length walls = Z.to_nat (VW g2))
    by exact (proj1 (proj1 (get_view_spec L g2 walls) Hview)).
  assert (Hg : g = set_screen g2
                     (paint (VH g2) (enumerate walls) (screen g2))).
  { rewrite <- draw_all_paint, Hr. reflexivity. }
  assert (Hok : snd (draw_all (enumerate walls) g2) = Ok tt)
    by (rewrite Hr; reflexivity).
  assert (Henum : List.length (range (Z.of_nat (List.length walls)))
                  = List.length walls).
  { unfold range. rewrite length_map, length_seq, Nat2Z.id. reflexivity. }
  pose proof (draw_all_drawable walls _ g2 Henum Hok) as Hdraw.
  unfold render, bindM.
  assert (Hview' : get_view L g = Ok walls)
    by (rewrite Hg, get_view_set_screen; exact Hview).
  rewrite Hview'.
  rewrite (surjective_pairing (draw_all (enumerate walls) g)).
  rewrite draw_all_paint.
  rewrite (draw_all_outcome (enumerate walls) g g2)
    by (rewrite Hg; reflexivity).
  rewrite Hok. f_equal.
  assert (Hvh : VH g = VH g2) by (rewrite Hg; reflexivity).
  assert (Hscr : screen g = paint (VH g2) (enumerate walls) (screen g2))
    by (rewrite Hg; reflexivity).
  rewrite Hvh, Hscr, paint_idempotent.
  - rewrite <- Hscr. apply set_screen_id.
  - rewrite Hlen. exact Hcols.
  - exact Hdraw.
Qed.

(** C8: a key other than [w], [s], [a], [d], [q], pressed at a free
    position, leaves position and angle as they are; and when the screen
    shows the frame drawn by the previous [update], the new [update]
    returns the very same object: the frame drawn again is identical. *)
Theorem C8_other_key_idempotent (g : Game) (key : string) :
  key <> "w"%string -> key <> "s"%string -> key <> "d"%string ->
  key <> "a"%string -> key <> "q"%string ->
  free g ->
  (let g' := fst (update L key g) in
   player_x g' = player_x g /\ player_y g' = player_y g
   /\ player_angle g' = player_angle g)
  /\ (forall g0 key0,
        wf_screen g0 ->
        update L key0 g0 = (g, Ok tt) ->
        update L key g = (g, Ok tt)).
Proof.
  intros Hw Hs Hd Ha Hq Hfree.
  pose proof (apply_key_other L key g Hw Hs Hd Ha Hq) as Hkey.
  assert (Hc : commit L key g = (g, Ok tt)).
  { rewrite (commit_after_key L key g g Hkey). unfold free in Hfree.
    rewrite Hfree. reflexivity. }
  split.
  - intros g'. subst g'.
    destruct (update_after_commit L key g g Hc) as [scr ->].
    repeat split; reflexivity.
  - intros g0 key0 Hwf Hprev. rewrite update_split in Hprev.
    unfold bindM in Hprev.
    destruct (commit L key0 g0) as [g2 [[]|e]] eqn:Hc0; [|discriminate].
    assert (Hwf2 : wf_screen g2).
    { destruct (commit_frame L key0 g0) as (x & y & a & Hfr).
      rewrite Hc0 in Hfr. cbn [fst] in Hfr. subst g2. exact Hwf. }
    rewrite update_split. unfold bindM. rewrite Hc.
    exact (render_again g2 g Hwf2 Hprev).
Qed.

End Idempotence.

(** ** The order on doubles that are not NaN *)

Lemma SFcompare_antisym (x y : spec_float) :
  x <> S754_nan -> y <> S754_nan ->
  SFcompare y x = option_map CompOpp (SFcompare x y).
Proof.
  intros Hx Hy.
  destruct x as [sx|sx| |sx mx ex], y as [sy|sy| |sy my ey];
    try congruence; cbn;
    try (destruct sx; reflexivity); try (destruct sy; reflexivity);
    try (destruct sx, sy; reflexivity).
  destruct sx, sy; try reflexivity;
    rewrite (Z.compare_antisym ex ey);
    destruct (ex ?= ey)%Z; cbn; try reflexivity;
    rewrite !Pos.compare_cont_spec; cbn;
    rewrite (Pos.compare_antisym mx my);
    destruct (mx ?= my)%positive; reflexivity.
Qed.

Lemma SFcompare_defined (x y : spec_float) :
  x <> S754_nan -> y <> S754_nan -> SFcompare x y <> None.
Proof.
  intros Hx Hy.
  destruct x as [sx|sx| |sx mx ex], y as [sy|sy| |sy my ey];
    try congruence; cbn; discriminate.
Qed.

Lemma not_nan_SF (x : float) : is_nan x = false -> Prim2SF x <> S754_nan.
Proof.
  unfold is_nan. rewrite FloatAxioms.eqb_spec. intros H Hn. rewrite Hn in H.
  discriminate.
Qed.

Lemma leb_refl (x : float) : is_nan x = false -> PrimFloat.leb x x = true.
Proof.
  unfold is_nan. rewrite FloatAxioms.eqb_spec, FloatAxioms.leb_spec. unfold SFeqb, SFleb.
  destruct (SFcompare (Prim2SF x) (Prim2SF x)) as [[| |]|];
    intros H; (reflexivity || discriminate).
Qed.

Lemma ltb_leb (x y : float) :
  PrimFloat.ltb x y = true -> PrimFloat.leb x y = true.
Proof.
  rewrite FloatAxioms.ltb_spec, FloatAxioms.leb_spec. unfold SFltb, SFleb.
  destruct (SFcompare (Prim2SF x) (Prim2SF y)) as [[| |]|];
    intros H; (reflexivity || discriminate).
Qed.

Lemma not_ltb_leb (x y : float) :
  is_nan x = false -> is_nan y = false ->
  PrimFloat.ltb x y = false <-> PrimFloat.leb y x = true.
Proof.
  intros Hx Hy. rewrite FloatAxioms.ltb_spec, FloatAxioms.leb_spec.
  unfold SFltb, SFleb.
  rewrite (SFcompare_antisym (Prim2SF x) (Prim2SF y)
             (not_nan_SF x Hx) (not_nan_SF y Hy)).
  pose proof (SFcompare_defined (Prim2SF x) (Prim2SF y)
                (not_nan_SF x Hx) (not_nan_SF y Hy)) as Hdef.
  destruct (SFcompare (Prim2SF x) (Prim2SF y)) as [[| |]|]; cbn;
    [| | |congruence];
    split; intros H; (reflexivity || discriminate).
Qed.

(** ** C5: the nearer intersection and the shadow flag *)

(** Python's [min(a, b)]: [b] when [b < a], else [a]. *)
Lemma nearer_min (h_dist v_dist : float) :
  is_nan h_dist = false -> is_nan v_dist = false ->
  let min_dist := fst (nearer h_dist v_dist) in
  let shadow := snd (nearer h_dist v_dist) in
  PrimFloat.leb min_dist h_dist = true
  /\ PrimFloat.leb min_dist v_dist = true
  /\ (shadow = true <-> PrimFloat.leb v_dist h_dist = true)
  /\ (shadow = true -> min_dist = v_dist)
  /\ (shadow = false -> min_dist = h_dist).
Proof.
  intros Hh Hv. unfold nearer.
  destruct (PrimFloat.ltb h_dist v_dist) eqn:Hlt; cbn [fst snd].
  - split; [exact (leb_refl h_dist Hh)|].
    split; [exact (ltb_leb _ _ Hlt)|].
    split; [|split; [discriminate|reflexivity]].
    split; [discriminate|]. intros Hle.
    apply (not_ltb_leb h_dist v_dist Hh Hv) in Hle. congruence.
  - pose proof (proj1 (not_ltb_leb h_dist v_dist Hh Hv) Hlt) as Hle.
    split; [exact Hle|]. split; [exact (leb_refl v_dist Hv)|].
    split; [split; [intros _; exact Hle|reflexivity]|].
    split; [reflexivity|discriminate].
Qed.

Lemma not_ltb_both_eqb (x y : float) :
  is_nan x = false -> is_nan y = false ->
  PrimFloat.ltb x y = false -> PrimFloat.ltb y x = false ->
  PrimFloat.eqb y x = true.
Proof.
  intros Hx Hy. rewrite !FloatAxioms.ltb_spec, FloatAxioms.eqb_spec.
  unfold SFltb, SFeqb.
  rewrite (SFcompare_antisym (Prim2SF x) (Prim2SF y)
             (not_nan_SF x Hx) (not_nan_SF y Hy)).
  pose proof (SFcompare_defined (Prim2SF x) (Prim2SF y)
                (not_nan_SF x Hx) (not_nan_SF y Hy)) as Hdef.
  destruct (SFcompare (Prim2SF x) (Prim2SF y)) as [[| |]|]; cbn;
    intros H1 H2; (reflexivity || discriminate || congruence).
Qed.

Lemma eqb_refl (x : float) : is_nan x = false -> PrimFloat.eqb x x = true.
Proof. unfold is_nan. intros H. apply negb_false_iff in H. exact H. Qed.

Lemma nearer_py_min (h_dist v_dist : float) :
  is_nan h_dist = false -> is_nan v_dist = false ->
  PrimFloat.eqb (fst (nearer h_dist v_dist)) (py_min h_dist v_dist) = true.
Proof.
  intros Hh Hv. unfold nearer, py_min.
  destruct (PrimFloat.ltb h_dist v_dist) eqn:Hlt; cbn [fst].
  - destruct (PrimFloat.ltb v_dist h_dist) eqn:Hgt.
    + apply ltb_leb in Hgt.
      apply (not_ltb_leb h_dist v_dist Hh Hv) in Hgt. congruence.
    + exact (eqb_refl h_dist Hh).
  - destruct (PrimFloat.ltb v_dist h_dist) eqn:Hgt.
    + exact (eqb_refl v_dist Hv).
    + exact (not_ltb_both_eqb h_dist v_dist Hh Hv Hlt Hgt).
Qed.

Section Selection.

Variable L : Libm.

(** C5: in every column that [get_view] returns, the distance projected
    is the one selected from the two intersection distances, it is their
    minimum (Python's [min], up to the sign of a zero), and the column is
    shadowed exactly when the vertical distance is a minimum, in which
    case it is the one projected. *)
Theorem C5_nearer_intersection (g : Game) (walls : list pyval) (idx : nat) :
  get_view L g = Ok walls ->
  (idx < Z.to_nat (VW g))%nat ->
  exists angle h_dist v_dist height shadow,
    cast_angle g (player_angle g + HALF_FOV) (Z.of_nat idx) = Ok angle
    /\ horizontal_intersection L g angle = Ok h_dist
    /\ vertical_intersection L g angle = Ok v_dist
    /\ walls !! idx = Some (PTuple height shadow)
    /\ let min_dist := fst (nearer h_dist v_dist) in
       project L g angle min_dist = Ok height
       /\ (is_nan h_dist = false -> is_nan v_dist = false ->
           PrimFloat.eqb min_dist (py_min h_dist v_dist) = true
           /\ PrimFloat.leb min_dist h_dist = true
           /\ PrimFloat.leb min_dist v_dist = true
           /\ (shadow = true <-> PrimFloat.leb v_dist h_dist = true)
           /\ (shadow = true -> min_dist = v_dist)
           /\ (shadow = false -> min_dist = h_dist)).
Proof.
  intros Hview Hidx.
  destruct (proj2 (proj1 (get_view_spec L g walls) Hview) idx Hidx)
    as (height & shadow & Hw & Hcol).
  apply view_column_formula in Hcol. unfold view_column in Hcol.
  destruct (cast_angle g _ _) as [angle|e] eqn:Hangle; [|discriminate].
  cbn [bind] in Hcol.
  destruct (horizontal_intersection L g angle) as [h_dist|e] eqn:Hh;
    [|discriminate]. cbn [bind] in Hcol.
  destruct (vertical_intersection L g angle) as [v_dist|e] eqn:Hv;
    [|discriminate]. cbn [bind] in Hcol.
  exists angle, h_dist, v_dist, height, shadow.
  destruct (nearer h_dist v_dist) as [min_dist sh] eqn:Hn.
  destruct (project L g angle min_dist) as [ht|e] eqn:Hp; [|discriminate].
  cbn [bind] in Hcol. inversion Hcol; subst ht sh.
  do 4 (split; [first [reflexivity | assumption]|]).
  cbn [fst]. split; [exact Hp|].
  intros Hnh Hnv.
  pose proof (nearer_py_min h_dist v_dist Hnh Hnv) as Hmin.
  pose proof (nearer_min h_dist v_dist Hnh Hnv) as Hnear.
  rewrite Hn in Hmin, Hnear. cbn [fst snd] in Hmin, Hnear.
  split; [exact Hmin|exact Hnear].
Qed.

End Selection.

(** ** C4: the heights of the view *)

Section Heights.

Variable L : Libm.

(** C4 (amended): for an object as the constructor leaves it
    ([ANGLE_STEP = FOV / VW], [WALL_HEIGHT = VH]), [get_view] returns
    [walls] exactly when [walls] has [VW] entries and, for each column
    [idx], entry [idx] is the tuple of the height and the shadow flag
    computed from the angle [player_angle + HALF_FOV - idx * ANGLE_STEP]:
    the height is [int(VH / (min_dist * cos(angle - player_angle)))], the
    quotient truncated toward zero, clamped to at most [VH]; it is the
    floor of the quotient whenever the quotient is not negative. *)
Theorem C4_get_view_heights (g : Game) (walls : list pyval) :
  wf_game g ->
  (get_view L g = Ok walls <->
   List.length walls = Z.to_nat (VW g)
   /\ forall idx : nat, (idx < Z.to_nat (VW g))%nat ->
        exists fi h_dist v_dist c wh q hq,
          float_of_int (Z.of_nat idx) = Ok fi
          /\ let angle :=
               (player_angle g + HALF_FOV - fi * ANGLE_STEP g)%float in
             horizontal_intersection L g angle = Ok h_dist
             /\ vertical_intersection L g angle = Ok v_dist
             /\ math_cos L (angle - player_angle g) = Ok c
             /\ float_of_int (VH g) = Ok wh
             /\ truediv wh (fst (nearer h_dist v_dist) * c) = Ok q
             /\ int q = Ok hq
             /\ (PrimFloat.leb 0 q = true -> floor q = Ok hq)
             /\ walls !! idx
                = Some (PTuple (Z.min hq (VH g))
                               (snd (nearer h_dist v_dist))))
  /\ (exists w, float_of_int (VW g) = Ok w
                /\ truediv FOV w = Ok (ANGLE_STEP g)).
Proof.
  intros [Hwall Hstep Hscr]. split; [|exact Hstep].
  rewrite get_view_spec. unfold column_formula. rewrite Hwall.
  split; intros [Hlen Hall]; (split; [exact Hlen|]); intros idx Hidx.
  - destruct (Hall idx Hidx)
      as (height & shadow & Hw & fi & h & v & c & wh & q & hq & Hfi & H).
    cbn zeta in H.
    destruct H as (Hh & Hv & Hc & Hwh & Hq & Hint & -> & ->).
    exists fi, h, v, c, wh, q, hq. cbn zeta.
    repeat (split; [assumption|]). split; [|exact Hw].
    intros Hpos. rewrite <- (int_floor_nonneg q Hpos). exact Hint.
  - destruct (Hall idx Hidx)
      as (fi & h & v & c & wh & q & hq & Hfi & H).
    cbn zeta in H.
    destruct H as (Hh & Hv & Hc & Hwh & Hq & Hint & _ & Hw).
    exists (Z.min hq (VH g)), (snd (nearer h v)). split; [exact Hw|].
    exists fi, h, v, c, wh, q, hq. cbn zeta.
    repeat (split; [assumption|]). split; reflexivity.
Qed.

End Heights.

(** C4, as stated, fails where the quotient is negative: with the player
    angle [2^54] on an 80 x 24 terminal, column 79 is cast at
    [2^54 - 2], so [angle - player_angle] is [-2.0] and its cosine is
    negative.  The quotient is about -57.65: [get_view] returns the
    height -57, its floor is -58. *)
Lemma C4_floor_counterexample :
  Game_init 80 24 3 3 0x1p+54 = Ok game_2p54
  /\ cast_angle game_2p54 (player_angle game_2p54 + HALF_FOV) 79
     = Ok 0x1.fffffffffffffp+53%float
  /\ (0x1.fffffffffffffp+53 - player_angle game_2p54)%float = (-2)%float
  /\ match get_view libm_2p54 game_2p54 with
     | Ok walls => walls !! 79%nat
     | Raise _ => None
     end = Some (PTuple (-57) true)
  /\ (h_dist <- horizontal_intersection libm_2p54 game_2p54
                  0x1.fffffffffffffp+53 ;;
      v_dist <- vertical_intersection libm_2p54 game_2p54
                  0x1.fffffffffffffp+53 ;;
      project_floor libm_2p54 game_2p54 0x1.fffffffffffffp+53
        (fst (nearer h_dist v_dist)))
     = Ok (-58).
Proof. repeat split; vm_compute; reflexivity. Qed.

(** ** C3: a ray cast at angle zero *)

Section ZeroAngle.

Variable L : Libm.

(** C3 fails: [math.tan(0.0)] is [0.0] (the C standard fixes
    [tan(+-0) = +-0]), and Python's float division raises on a zero
    divisor instead of returning an infinity.  At angle [0.0] the first
    division of [horizontal_intersection] raises [ZeroDivisionError],
    from any finite position; and [get_view] casts exactly that angle in
    column 0 when the player angle is [-HALF_FOV]. *)
Theorem C3_horizontal_zero_division :
  c_tan L 0 = 0%float ->
  (forall (g : Game) (f : Z) (ff : float),
      floor (player_y g) = Ok f -> float_of_int f = Ok ff ->
      horizontal_intersection L g 0 = Raise ZeroDivisionError)
  /\ get_view L game_zero_angle = Raise ZeroDivisionError.
Proof.
  intros Htan.
  assert (Hh : forall (g : Game) (f : Z) (ff : float),
             floor (player_y g) = Ok f -> float_of_int f = Ok ff ->
             horizontal_intersection L g 0 = Raise ZeroDivisionError).
  { intros g f ff Hf Hff. unfold horizontal_intersection.
    change (floor (0 / math_pi)) with (@Ok Z 0). cbn [bind].
    change (negb (PrimFloat.eqb (abs (int_mod_2 0)) 0)) with false.
    cbn iota. rewrite Hf. cbn [bind]. rewrite Hff. cbn [bind].
    unfold math_tan, math_1. rewrite Htan. reflexivity. }
  split; [exact Hh|].
  unfold get_view.
  change (Z.to_nat (VW game_zero_angle)) with 80%nat.
  change (player_angle game_zero_angle + HALF_FOV)%float with 0%float.
  cbn [repeat List.length]. unfold range.
  change (Z.to_nat (Z.of_nat 80)) with 80%nat.
  cbn [seq map get_view_loop]. unfold view_column.
  change (cast_angle game_zero_angle 0 (Z.of_nat 0)) with (@Ok float 0%float).
  cbn [bind]. rewrite (Hh game_zero_angle 3 3%float); reflexivity.
Qed.

End ZeroAngle.

(** ** The constructor establishes the shape of the object *)

Lemma Game_init_wf (columns lines : Z) (x y angle : float) (g : Game) :
  Game_init columns lines x y angle = Ok g -> wf_game g.
Proof.
  unfold Game_init. intros H.
  destruct (float_of_int columns) as [w|e] eqn:Hw; [|discriminate].
  cbn [bind] in H.
  destruct (truediv FOV w) as [step|e] eqn:Hstep; [|discriminate].
  cbn [bind] in H. inversion H; subst g. constructor; cbn.
  - reflexivity.
  - exists w. split; assumption.
  - split; cbn.
    + unfold range. rewrite !length_map, length_seq. reflexivity.
    + apply Forall_forall. intros r Hr.
      apply list_elem_of_fmap in Hr. destruct Hr as (i & -> & _).
      unfold range. rewrite !length_map, length_seq. reflexivity.
Qed.

Lemma game_small_init : Game_init 8 6 3 3 1 = Ok game_small.
Proof. vm_compute. reflexivity. Qed.

Lemma game_small_wf : wf_game game_small.
Proof. exact (Game_init_wf 8 6 3 3 1 game_small game_small_init). Qed.

(** ** Concrete runs of the theorems *)

Lemma C2_collision_invariant_witness :
  free game_small
  /\ snd (run libm_poly ["w"; "s"; "a"]%string game_small) = Ok tt
  /\ free (fst (run libm_poly ["w"; "s"; "a"]%string game_small)).
Proof.
  assert (Hfree : free game_small) by (vm_compute; reflexivity).
  assert (Hrun : snd (run libm_poly ["w"; "s"; "a"]%string game_small)
                 = Ok tt) by (vm_compute; reflexivity).
  split; [exact Hfree|]. split; [exact Hrun|].
  exact (proj1 (C2_collision_invariant libm_poly ["w"; "s"; "a"]%string
                  game_small Hfree) Hrun).
Defined.

Lemma C6_update_moves_witness :
  math_cos libm_poly (player_angle game_small) = Ok (poly_cos 1)
  /\ math_sin libm_poly (player_angle game_small) = Ok (poly_sin 1)
  /\ player_angle (fst (update libm_poly "w" game_small))
     = player_angle game_small
  /\ player_angle (fst (update libm_poly "a" game_small))
     = (player_angle game_small + STEP_SIZE)%float.
Proof.
  assert (Hc : math_cos libm_poly (player_angle game_small)
               = Ok (poly_cos 1)) by (vm_compute; reflexivity).
  assert (Hs : math_sin libm_poly (player_angle game_small)
               = Ok (poly_sin 1)) by (vm_compute; reflexivity).
  split; [exact Hc|]. split; [exact Hs|].
  pose proof (C6_update_moves libm_poly game_small) as (Hw & _ & Ha & _).
  split.
  - exact (proj1 (Hw (poly_cos 1) (poly_sin 1) Hc Hs)).
  - exact (proj1 Ha).
Defined.

Lemma C7_draw_line_column_witness :
  wf_screen game_small /\ 0 <= 2 < VW game_small
  /\ line_offset (VH game_small) 3 = Ok 1
  /\ char_at (screen (fst (draw_line 2 3 false game_small))) 2 (Z.to_nat 2)
     = Some "#"%char.
Proof.
  assert (Hwf : wf_screen game_small) by exact (wf_scr _ game_small_wf).
  assert (Hx : 0 <= 2 < VW game_small) by (vm_compute; split; congruence).
  assert (Hoff : line_offset (VH game_small) 3 = Ok 1)
    by (vm_compute; reflexivity).
  assert (Hnum : (2 < Z.to_nat (VH game_small))%nat)
    by (vm_compute; repeat constructor).
  split; [exact Hwf|]. split; [exact Hx|]. split; [exact Hoff|].
  exact (proj1 (proj2 (C7_draw_line_column game_small 2 3 1 false
                         Hwf Hx Hoff)) 2%nat Hnum).
Defined.

Lemma C10_draw_line_frame_witness :
  0 <= 2 < VW game_small /\ wf_screen game_small
  /\ char_at (screen (fst (draw_line 2 3 false game_small))) 2 5
     = char_at (screen game_small) 2 5.
Proof.
  assert (Hwf : wf_screen game_small) by exact (wf_scr _ game_small_wf).
  assert (Hx : 0 <= 2 < VW game_small) by (vm_compute; split; congruence).
  assert (Hc : 5%nat <> Z.to_nat 2) by (vm_compute; discriminate).
  split; [exact Hx|]. split; [exact Hwf|].
  exact (proj2 (proj2 (proj2 (C10_draw_line_frame game_small 2 3 false
                                Hx Hwf))) 2%nat 5%nat Hc).
Defined.

Lemma C8_other_key_idempotent_witness :
  free (fst (update libm_poly "w" game_small))
  /\ wf_screen game_small
  /\ update libm_poly "w" game_small
     = (fst (update libm_poly "w" game_small), Ok tt)
  /\ update libm_poly "x" (fst (update libm_poly "w" game_small))
     = (fst (update libm_poly "w" game_small), Ok tt).
Proof.
  assert (Hfree : free (fst (update libm_poly "w" game_small)))
    by (vm_compute; reflexivity).
  assert (Hwf : wf_screen game_small) by exact (wf_scr _ game_small_wf).
  assert (Hprev : update libm_poly "w" game_small
                  = (fst (update libm_poly "w" game_small), Ok tt))
    by (vm_compute; reflexivity).
  split; [exact Hfree|]. split; [exact Hwf|]. split; [exact Hprev|].
  refine (proj2 (C8_other_key_idempotent libm_poly
                   (fst (update libm_poly "w" game_small)) "x"
                   _ _ _ _ _ Hfree) game_small "w"%string Hwf Hprev);
    discriminate.
Defined.

Lemma C4_get_view_heights_witness :
  wf_game game_small
  /\ get_view libm_poly game_small
     = Ok [PTuple 3 false; PTuple 3 false; PTuple 3 false; PTuple 2 false;
           PTuple 2 false; PTuple 2 false; PTuple 4 true; PTuple 5 true]
  /\ List.length
       [PTuple 3 false; PTuple 3 false; PTuple 3 false; PTuple 2 false;
        PTuple 2 false; PTuple 2 false; PTuple 4 true; PTuple 5 true]
     = Z.to_nat (VW game_small)
  /\ exists w, float_of_int (VW game_small) = Ok w
               /\ truediv FOV w = Ok (ANGLE_STEP game_small).
Proof.
  assert (Hview : get_view libm_poly game_small
    = Ok [PTuple 3 false; PTuple 3 false; PTuple 3 false; PTuple 2 false;
          PTuple 2 false; PTuple 2 false; PTuple 4 true; PTuple 5 true])
    by (vm_compute; reflexivity).
  split; [exact game_small_wf|]. split; [exact Hview|].
  destruct (C4_get_view_heights libm_poly game_small
              [PTuple 3 false; PTuple 3 false; PTuple 3 false;
               PTuple 2 false; PTuple 2 false; PTuple 2 false;
               PTuple 4 true; PTuple 5 true] game_small_wf)
    as [Hiff Hstep].
  split; [exact (proj1 (proj1 Hiff Hview)) | exact Hstep].
Defined.

Lemma C5_nearer_intersection_witness :
  get_view libm_poly game_small
  = Ok [PTuple 3 false; PTuple 3 false; PTuple 3 false; PTuple 2 false;
        PTuple 2 false; PTuple 2 false; PTuple 4 true; PTuple 5 true]
  /\ (3 < Z.to_nat (VW game_small))%nat
  /\ exists angle h_dist v_dist,
       cast_angle game_small (player_angle game_small + HALF_FOV)
                  (Z.of_nat 3) = Ok angle
       /\ horizontal_intersection libm_poly game_small angle = Ok h_dist
       /\ vertical_intersection libm_poly game_small angle = Ok v_dist.
Proof.
  assert (Hview : get_view libm_poly game_small
    = Ok [PTuple 3 false; PTuple 3 false; PTuple 3 false; PTuple 2 false;
          PTuple 2 false; PTuple 2 false; PTuple 4 true; PTuple 5 true])
    by (vm_compute; reflexivity).
  assert (Hidx : (3 < Z.to_nat (VW game_small))%nat)
    by (vm_compute; repeat constructor).
  split; [exact Hview|]. split; [exact Hidx|].
  destruct (C5_nearer_intersection libm_poly game_small _ 3 Hview Hidx)
    as (angle & h_dist & v_dist & height & shadow & Ha & Hh & Hv & _).
  exists angle, h_dist, v_dist. repeat split; assumption.
Defined.

Lemma C3_horizontal_zero_division_witness :
  c_tan libm_poly 0 = 0%float
  /\ horizontal_intersection libm_poly game_small 0
     = Raise ZeroDivisionError
  /\ get_view libm_poly game_zero_angle = Raise ZeroDivisionError.
Proof.
  assert (Htan : c_tan libm_poly 0 = 0%float) by (vm_compute; reflexivity).
  assert (Hf : floor (player_y game_small) = Ok 3)
    by (vm_compute; reflexivity).
  assert (Hff : float_of_int 3 = Ok 3%float) by (vm_compute; reflexivity).
  split; [exact Htan|].
  pose proof (C3_horizontal_zero_division libm_poly Htan) as [Hh Hview].
  split; [exact (Hh game_small 3 3%float Hf Hff) | exact Hview].
Defined.

(** * Further properties of the code *)

(** ** The map: its border and what lies beyond its sixteen bits *)

Lemma MAP_rows_bounded (iy line : Z) :
  0 <= iy < 8 -> nth_error MAP (Z.to_nat iy) = Some line ->
  0 < line < 2 ^ 16
  /\ Z.testbit line 0 = true /\ Z.testbit line 15 = true.
Proof.
  intros H Hnth.
  assert (Hc : iy = 0 \/ iy = 1 \/ iy = 2 \/ iy = 3 \/ iy = 4 \/ iy = 5
               \/ iy = 6 \/ iy = 7) by lia.
  repeat (destruct Hc as [-> | Hc]); try subst iy;
    cbn in Hnth; inversion Hnth; subst line;
    (split; [lia | split; reflexivity]).
Qed.

Lemma point_in_wall_bit (x y : float) (ix iy : Z) :
  int y = Ok iy -> 0 <= iy < 8 -> int x = Ok ix ->
  exists line, nth_error MAP (Z.to_nat iy) = Some line
    /\ point_in_wall x y = Ok (Z.testbit line (Z.abs (ix - 1))).
Proof.
  intros Hy Hin Hx. destruct (MAP_index_in iy Hin) as (line & Hnth & Hidx).
  exists line. split; [exact Hnth|].
  unfold point_in_wall. rewrite Hy. cbn [bind]. rewrite Hidx, Hx.
  cbn [bind]. rewrite land_mask_testbit by lia. reflexivity.
Qed.



(** X2: the grid of columns 1 to 16 and rows 0 to 7 is closed: every cell
    of its first and last column, and of its first and last row, is a
    wall. *)
Theorem X2_map_border_is_wall (x y : float) (ix iy : Z) :
  int y = Ok iy -> int x = Ok ix ->
  0 <= iy < 8 -> 1 <= ix <= 16 ->
  ix = 1 \/ ix = 16 \/ iy = 0 \/ iy = 7 ->
  point_in_wall x y = Ok true.
Proof.
  intros Hy Hx Hin Hcol Hborder.
  destruct (point_in_wall_bit x y ix iy Hy Hin Hx) as (line & Hnth & ->).
  f_equal.
  destruct Hborder as [-> | [-> | Hrow]].
  - exact (proj1 (proj2 (MAP_rows_bounded iy line Hin Hnth))).
  - exact (proj2 (proj2 (MAP_rows_bounded iy line Hin Hnth))).
  - assert (Hline : line = 65535)
      by (destruct Hrow as [-> | ->]; cbn in Hnth; inversion Hnth;
          reflexivity).
    subst line. rewrite Z.abs_eq by lia.
    change 65535 with (Z.ones 16). apply Z.ones_spec_low. lia.
Qed.

Lemma X2_map_border_is_wall_witness :
  int 0x1.cp+2 = Ok 7 /\ int 0x1.4p+2 = Ok 5
  /\ 0 <= 7 < 8 /\ 1 <= 5 <= 16
  /\ (5 = 1 \/ 5 = 16 \/ 7 = 0 \/ 7 = 7)
  /\ point_in_wall 0x1.4p+2 0x1.cp+2 = Ok true.
Proof.
  assert (Hy : int 0x1.cp+2 = Ok 7) by (vm_compute; reflexivity).
  assert (Hx : int 0x1.4p+2 = Ok 5) by (vm_compute; reflexivity).
  assert (Hin : 0 <= 7 < 8) by lia.
  assert (Hcol : 1 <= 5 <= 16) by lia.
  assert (Hb : 5 = 1 \/ 5 = 16 \/ 7 = 0 \/ 7 = 7)
    by (right; right; right; reflexivity).
  repeat (split; [assumption|]).
  exact (X2_map_border_is_wall 0x1.4p+2 0x1.cp+2 5 7 Hy Hx Hin Hcol Hb).
Defined.

(** X3: a row index from -8 to -1 is not out of the map for Python: it
    selects the row eight further down, so the answer is that of the same
    column in that row. *)
Theorem X3_point_in_wall_negative_row (x y y' : float) (iy : Z) :
  int y = Ok iy -> -8 <= iy < 0 -> int y' = Ok (iy + 8) ->
  point_in_wall x y = point_in_wall x y'.
Proof.
  intros Hy Hneg Hy'. unfold point_in_wall. rewrite Hy, Hy'. cbn [bind].
  replace (list_index MAP iy) with (list_index MAP (iy + 8));
    [reflexivity|].
  unfold list_index. change (Z.of_nat (List.length MAP)) with 8.
  destruct (Z.ltb_spec (iy + 8) 0); [lia|].
  destruct (Z.ltb_spec iy 0); [|lia]. reflexivity.
Qed.

Lemma X3_point_in_wall_negative_row_witness :
  int (-0x1.8p+1) = Ok (-3) /\ -8 <= -3 < 0 /\ int 0x1.4p+2 = Ok (-3 + 8)
  /\ point_in_wall 0x1.4p+2 (-0x1.8p+1) = point_in_wall 0x1.4p+2 0x1.4p+2.
Proof.
  assert (Hy : int (-0x1.8p+1) = Ok (-3)) by (vm_compute; reflexivity).
  assert (Hy' : int 0x1.4p+2 = Ok (-3 + 8)) by (vm_compute; reflexivity).
  assert (Hneg : -8 <= -3 < 0) by lia.
  split; [exact Hy|]. split; [exact Hneg|]. split; [exact Hy'|].
  exact (X3_point_in_wall_negative_row 0x1.4p+2 (-0x1.8p+1) 0x1.4p+2 (-3)
           Hy Hneg Hy').
Defined.

(** ** [distance]: never negative, symmetric *)

Lemma binary_round_aux_not_negative (mx ex : Z) (lx : location) :
  SFltb (binary_round_aux prec emax false mx ex lx) (S754_zero false)
  = false.
Proof.
  unfold binary_round_aux.
  destruct (shr_fexp prec emax mx ex lx) as [mrs' e'].
  destruct (shr_fexp prec emax _ e' loc_Exact) as [mrs'' e''].
  destruct (shr_m mrs'') as [|m|m]; try reflexivity.
  destruct (e'' <=? emax - prec); reflexivity.
Qed.

Lemma sqrt_not_negative (f : float) :
  PrimFloat.ltb (PrimFloat.sqrt f) 0 = false.
Proof.
  rewrite FloatAxioms.ltb_spec, sqrt_spec.
  change (Prim2SF 0) with (S754_zero false). unfold SF64sqrt, SFsqrt.
  destruct (Prim2SF f) as [s|[|]| |[|] m e]; try reflexivity.
  destruct (SFsqrt_core_binary prec emax (Z.pos m) e) as [[mz ez] lz].
  apply binary_round_aux_not_negative.
Qed.

Lemma math_sqrt_result (f d : float) :
  math_sqrt f = Ok d -> d = PrimFloat.sqrt f.
Proof.
  unfold math_sqrt, math_1.
  destruct (is_nan (PrimFloat.sqrt f) && negb (is_nan f)); [discriminate|].
  destruct (is_infinity (PrimFloat.sqrt f) && is_finite f); [discriminate|].
  intros H; inversion H; reflexivity.
Qed.

Lemma float_pow_2_raises (L : Libm) (a : float) (e : exn) :
  float_pow_2 L a = Raise e -> e = OverflowError.
Proof.
  unfold float_pow_2.
  destruct (is_nan a); [discriminate|].
  destruct (is_infinity a); [discriminate|].
  destruct (PrimFloat.eqb a 0); [discriminate|].
  destruct (PrimFloat.eqb _ 1); [discriminate|].
  destruct (is_infinity _); [|discriminate].
  intros H; inversion H; reflexivity.
Qed.

Lemma SFadd_comm (x y : spec_float) :
  SFadd prec emax x y = SFadd prec emax y x.
Proof.
  destruct x as [sx|sx| |sx mx ex], y as [sy|sy| |sy my ey];
    try reflexivity; try (destruct sx, sy; reflexivity).
  unfold SFadd. rewrite (Z.min_comm ey ex). f_equal. apply Z.add_comm.
Qed.

Lemma float_add_comm (a b : float) : (a + b = b + a)%float.
Proof.
  apply Prim2SF_inj. rewrite !add_spec. apply SFadd_comm.
Qed.

Section Distance.

Variable L : Libm.

Lemma distance_result (a b d : float) :
  distance L a b = Ok d -> PrimFloat.ltb d 0 = false.
Proof.
  unfold distance. intros H.
  destruct (float_pow_2 L a) as [a2|e]; [|discriminate]. cbn [bind] in H.
  destruct (float_pow_2 L b) as [b2|e]; [|discriminate]. cbn [bind] in H.
  rewrite (math_sqrt_result _ _ H). apply sqrt_not_negative.
Qed.

(** X4: a distance that [distance] returns is never negative, whatever
    the math library computes for the squares; so neither is a distance
    returned by [horizontal_intersection] or [vertical_intersection]. *)
Theorem X4_distance_not_negative (g : Game) (a b angle d : float) :
  distance L a b = Ok d
  \/ horizontal_intersection L g angle = Ok d
  \/ vertical_intersection L g angle = Ok d ->
  PrimFloat.ltb d 0 = false.
Proof.
  intros [H | [H | H]].
  - exact (distance_result a b d H).
  - unfold horizontal_intersection in H.
    repeat match type of H with
           | bind ?r _ = Ok _ =>
               destruct r; [cbn [bind] in H | discriminate]
           end.
    exact (distance_result _ _ d H).
  - unfold vertical_intersection in H.
    repeat match type of H with
           | bind ?r _ = Ok _ =>
               destruct r; [cbn [bind] in H | discriminate]
           end.
    exact (distance_result _ _ d H).
Qed.

(** X5: [distance] is symmetric in its arguments, in its result and in
    the exception it raises. *)
Theorem X5_distance_symmetric (a b : float) :
  distance L a b = distance L b a.
Proof.
  unfold distance.
  destruct (float_pow_2 L a) as [a2|ea] eqn:Ha,
           (float_pow_2 L b) as [b2|eb] eqn:Hb; cbn [bind];
    try reflexivity.
  - rewrite float_add_comm. reflexivity.
  - rewrite (float_pow_2_raises L a ea Ha), (float_pow_2_raises L b eb Hb).
    reflexivity.
Qed.

End Distance.

Lemma X4_distance_not_negative_witness :
  distance libm_poly 3 4 = Ok 5%float
  /\ PrimFloat.ltb 5 0 = false.
Proof.
  assert (H : distance libm_poly 3 4 = Ok 5%float)
    by (vm_compute; reflexivity).
  split; [exact H|].
  exact (X4_distance_not_negative libm_poly game_small 3 4 0 5
           (or_introl H)).
Defined.

(** ** The loop: composition, quitting, and what it preserves *)

Section Loop.

Variable L : Libm.

Lemma run_app (ks1 ks2 : list string) (g : Game) :
  run L (ks1 ++ ks2) g
  = match run L ks1 g with
    | (g1, Ok _) => run L ks2 g1
    | (g1, Raise e) => (g1, Raise e)
    end.
Proof.
  revert g. induction ks1 as [|key ks1 IH]; intros g; [reflexivity|].
  cbn [app run]. unfold bindM.
  destruct (update L key g) as [g1 [[]|e]]; [|reflexivity].
  apply IH.
Qed.


Lemma update_q (g : Game) : update L "q" g = (g, Raise SystemExit).
Proof. reflexivity. Qed.

(** X7: [q] raises [SystemExit] before the collision check and the
    drawing, leaving the object (screen included) as it was; a sequence of
    keys that contains [q] never runs to completion, and the keys after
    the first [q] reached are never used. *)
Theorem X7_quit_stops_the_loop (before after : list string) (g : Game) :
  update L "q" g = (g, Raise SystemExit)
  /\ run L (before ++ "q"%string :: after) g
     = run L (before ++ ["q"%string]) g
  /\ exists e, snd (run L (before ++ "q"%string :: after) g) = Raise e.
Proof.
  split; [apply update_q|].
  rewrite !run_app.
  destruct (run L before g) as [g1 [[]|e]].
  - cbn [run]. unfold bindM. rewrite update_q.
    split; [reflexivity|]. exists SystemExit. reflexivity.
  - split; [reflexivity|]. exists e. reflexivity.
Qed.

Lemma wf_game_set_player (g : Game) (x y a : float) :
  wf_game g ->
  wf_game (set_player_angle (set_player_y (set_player_x g x) y) a).
Proof. intros [Hw Hs Hscr]. constructor; assumption. Qed.

Lemma wf_game_render (g : Game) : wf_game g -> wf_game (fst (render L g)).
Proof.
  intros [Hw Hs [Hrows Hcols]]. unfold render, bindM.
  destruct (get_view L g) as [walls|e] eqn:Hview;
    [|constructor; [assumption..|split; assumption]].
  rewrite draw_all_paint.
  assert (Hlen : List.length walls = Z.to_nat (VW g))
    by exact (proj1 (proj1 (get_view_spec L g walls) Hview)).
  destruct (paint_shape (VH g) (Z.to_nat (VW g)) walls 0 (screen g)
              ltac:(lia) Hcols) as [Hl Hshape].
  constructor; cbn [VW VH WALL_HEIGHT ANGLE_STEP screen set_screen];
    [assumption..|].
  unfold enumerate, range. rewrite Nat2Z.id.
  split; cbn [VW VH screen set_screen]; [rewrite Hl; exact Hrows|].
  exact Hshape.
Qed.

Lemma update_constants (key : string) (g : Game) :
  let g' := fst (update L key g) in
  VW g' = VW g /\ VH g' = VH g /\ WALL_HEIGHT g' = WALL_HEIGHT g
  /\ ANGLE_STEP g' = ANGLE_STEP g.
Proof.
  cbn zeta. rewrite update_split. unfold bindM.
  destruct (commit_frame L key g) as (x & y & a & Hfr).
  destruct (commit L key g) as [g2 [[]|e]]; cbn [fst] in Hfr; subst g2.
  - destruct (render_frame L
                (set_player_angle (set_player_y (set_player_x g x) y) a))
      as [scr ->].
    repeat split; reflexivity.
  - repeat split; reflexivity.
Qed.

Lemma update_wf (key : string) (g : Game) :
  wf_game g -> wf_game (fst (update L key g)).
Proof.
  intros Hwf. rewrite update_split. unfold bindM.
  destruct (commit_frame L key g) as (x & y & a & Hfr).
  destruct (commit L key g) as [g2 [[]|e]]; cbn [fst] in Hfr; subst g2.
  - apply wf_game_render, wf_game_set_player, Hwf.
  - cbn [fst]. apply wf_game_set_player, Hwf.
Qed.

(** X8: whatever the keys and however the loop ends, the object keeps the
    viewport size, the wall height and the angle step it was built with,
    and its screen keeps [VH] rows of [VW] characters. *)
Theorem X8_run_keeps_shape (keys : list string) (g : Game) :
  wf_game g ->
  let g' := fst (run L keys g) in
  wf_game g'
  /\ VW g' = VW g /\ VH g' = VH g /\ WALL_HEIGHT g' = WALL_HEIGHT g
  /\ ANGLE_STEP g' = ANGLE_STEP g.
Proof.
  revert g. induction keys as [|key keys IH]; intros g Hwf; cbn zeta.
  - split; [exact Hwf|]. repeat split; reflexivity.
  - cbn [run]. unfold bindM.
    pose proof (update_wf key g Hwf) as Hwf1.
    pose proof (update_constants key g) as Hc. cbn zeta in Hc.
    destruct (update L key g) as [g1 [[]|e]]; cbn [fst] in *.
    + specialize (IH g1 Hwf1). cbn zeta in IH.
      destruct IH as (H0 & H1 & H2 & H3 & H4).
      destruct Hc as (C1 & C2 & C3 & C4).
      split; [exact H0|]. repeat split; congruence.
    + destruct Hc as (C1 & C2 & C3 & C4).
      split; [exact Hwf1|]. repeat split; assumption.
Qed.

End Loop.

Lemma X8_run_keeps_shape_witness :
  wf_game game_small
  /\ wf_game (fst (run libm_poly ["w"; "x"; "q"; "w"]%string game_small)).
Proof.
  split; [exact game_small_wf|].
  exact (proj1 (X8_run_keeps_shape libm_poly ["w"; "x"; "q"; "w"]%string
                  game_small game_small_wf)).
Defined.

(** ** The sign of an offset *)

Lemma binary_round_aux_nonneg (mx ex : Z) (lx : location) :
  SF_nonneg (binary_round_aux prec emax false mx ex lx).
Proof.
  unfold binary_round_aux.
  destruct (shr_fexp prec emax mx ex lx) as [mrs' e'].
  destruct (shr_fexp prec emax _ e' loc_Exact) as [mrs'' e''].
  destruct (shr_m mrs'') as [|m|m]; try exact I.
  destruct (e'' <=? emax - prec); exact I.
Qed.

Lemma binary_round_nonneg (m : positive) (e : Z) :
  SF_nonneg (binary_round prec emax false m e).
Proof.
  unfold binary_round. destruct (shl_align m e _) as [mz ez].
  apply binary_round_aux_nonneg.
Qed.

Lemma binary_normalize_nonneg (n e : Z) :
  0 <= n -> SF_nonneg (binary_normalize prec emax n e false).
Proof.
  intros Hn. destruct n as [|m|m]; [exact I | | lia].
  apply binary_round_nonneg.
Qed.

Lemma SF2Prim_nonneg (sf : spec_float) :
  SF_nonneg sf -> SF_nonneg (Prim2SF (SF2Prim sf)).
Proof.
  destruct sf as [[|]|[|]| |[|] m e]; intros H; try exact I;
    try (destruct H).
  cbn [SF2Prim]. rewrite Z_ldexp_spec, of_uint63_spec.
  pose proof (binary_normalize_nonneg
                (Uint63.to_Z (Uint63.of_Z (Z.pos m))) 0
                (proj1 (Uint63.to_Z_bounded _))) as Hn.
  destruct (binary_normalize prec emax _ 0 false) as [s|s| |s m' e'];
    cbn [SFldexp]; try exact Hn.
  destruct s; [destruct Hn|]. apply binary_round_nonneg.
Qed.

Lemma floor_nonneg (f : float) (n : Z) :
  SF_nonneg (Prim2SF f) -> floor f = Ok n -> 0 <= n.
Proof.
  unfold floor, float_to_int.
  destruct (Prim2SF f) as [s|s| |s m e]; intros Hs H; inversion H.
  - lia.
  - destruct s; [destruct Hs|]. unfold SF_num, SF_den, cond_Zopp.
    apply Z.div_pos; [|apply Z.pow_pos_nonneg; lia].
    apply Z.mul_nonneg_nonneg; [lia|]. apply Z.pow_nonneg. lia.
Qed.

(** The offset of a height that does not exceed the viewport height is
    not negative. *)
Lemma line_offset_nonneg (vh height offset : Z) :
  height <= vh -> line_offset vh height = Ok offset -> 0 <= offset.
Proof.
  intros Hh. unfold line_offset, int_truediv_2, int_scaled.
  pose proof (binary_normalize_nonneg (vh - height) (-1) ltac:(lia)) as Hn.
  destruct (binary_normalize prec emax (vh - height) (-1) false)
    as [s|s| |s m e] eqn:Hsf; cbn [bind]; try discriminate;
    intros H; refine (floor_nonneg _ _ _ H); apply SF2Prim_nonneg;
    exact Hn.
Qed.

(** ** The frame on the screen is the view *)

Lemma draw_screen_char (vh offset : Z) (shadow : bool) (w k : nat)
    (scr : list row) (num c : nat) :
  Forall (fun r : row => List.length r = w) scr ->
  (k < w)%nat -> (num < List.length scr)%nat ->
  char_at (draw_screen vh offset (Z.of_nat k) shadow scr) num c
  = if Nat.eqb c k then Some (glyph vh offset shadow (Z.of_nat num))
    else char_at scr num c.
Proof.
  intros Hs Hk Hnum. unfold char_at.
  rewrite (draw_screen_lookup vh offset (Z.of_nat k) shadow scr w num Hs)
    by lia.
  rewrite Nat2Z.id.
  destruct (lookup_lt_is_Some_2 scr num Hnum) as [r Hr]. rewrite Hr. cbn.
  destruct (Nat.eqb_spec c k) as [->|Hne].
  - apply list_lookup_insert_eq.
    rewrite (Forall_lookup_1 _ _ _ _ Hs Hr). exact Hk.
  - apply list_lookup_insert_ne. congruence.
Qed.

(** Columns before the first painted one are left alone. *)
Lemma paint_before (vh : Z) (w : nat) (ws : list pyval) :
  forall (k : nat) (scr : list row) (num c : nat),
    (k + List.length ws <= w)%nat ->
    Forall (fun r : row => List.length r = w) scr ->
    (num < List.length scr)%nat -> (c < k)%nat ->
    char_at (paint vh (combine (map Z.of_nat (seq k (List.length ws))) ws)
               scr) num c
    = char_at scr num c.
Proof.
  induction ws as [|wv ws IH]; intros k scr num c Hk Hs Hnum Hc;
    [reflexivity|].
  cbn [List.length seq map combine paint]. cbn [List.length] in Hk.
  destruct wv as [n|height shadow]; [reflexivity|].
  destruct (line_offset vh height) as [offset|e]; [|reflexivity].
  assert (Hx : 0 <= Z.of_nat k < Z.of_nat w) by lia.
  destruct (draw_screen_shape vh offset _ shadow scr _ Hs Hx)
    as [Hlen Hshape].
  rewrite IH by (try assumption; lia).
  rewrite (draw_screen_char vh offset shadow w k scr num c Hs)
    by (assumption || lia).
  destruct (Nat.eqb_spec c k); [lia|reflexivity].
Qed.

(** A painted column shows the glyphs of its entry. *)
Lemma paint_inside (vh : Z) (w : nat) (ws : list pyval) :
  forall (k : nat) (scr : list row) (num c : nat),
    (k + List.length ws <= w)%nat ->
    Forall (fun r : row => List.length r = w) scr ->
    Forall (drawable vh) ws ->
    (num < List.length scr)%nat -> (k <= c < k + List.length ws)%nat ->
    exists height shadow offset,
      ws !! (c - k)%nat = Some (PTuple height shadow)
      /\ line_offset vh height = Ok offset
      /\ char_at (paint vh (combine (map Z.of_nat
                                       (seq k (List.length ws))) ws) scr)
                 num c
         = Some (glyph vh offset shadow (Z.of_nat num)).
Proof.
  induction ws as [|wv ws IH]; intros k scr num c Hk Hs Hall Hnum Hc;
    [cbn in Hc; lia|].
  inversion Hall as [|? ? (height & shadow & offset & -> & Hoff) Hrest];
    subst.
  cbn [List.length seq map combine paint]. cbn [List.length] in Hk, Hc.
  rewrite Hoff.
  assert (Hx : 0 <= Z.of_nat k < Z.of_nat w) by lia.
  destruct (draw_screen_shape vh offset _ shadow scr _ Hs Hx)
    as [Hlen Hshape].
  destruct (Nat.eq_dec c k) as [->|Hne].
  - exists height, shadow, offset. rewrite Nat.sub_diag.
    split; [reflexivity|]. split; [exact Hoff|].
    rewrite (paint_before vh w ws (S k)) by (try assumption; lia).
    rewrite (draw_screen_char vh offset shadow w k scr num k Hs)
      by (assumption || lia).
    rewrite Nat.eqb_refl. reflexivity.
  - destruct (IH (S k) (draw_screen vh offset (Z.of_nat k) shadow scr)
                num c ltac:(lia) Hshape Hrest ltac:(lia) ltac:(lia))
      as (h' & s' & o' & Hw & Ho & Hch).
    exists h', s', o'. split; [|split; assumption].
    replace (c - k)%nat with (S (c - S k)) by lia. exact Hw.
Qed.

Section Frame.

Variable L : Libm.

(** Every entry of the view is a tuple whose height is at most [VH]. *)
Lemma get_view_heights_bounded (g : Game) (walls : list pyval) (c : nat)
    (height : Z) (shadow : bool) :
  get_view L g = Ok walls -> walls !! c = Some (PTuple height shadow) ->
  height <= VH g.
Proof.
  intros Hview Hw.
  destruct (proj1 (get_view_spec L g walls) Hview) as [Hlen Hall].
  assert (Hc : (c < Z.to_nat (VW g))%nat)
    by (rewrite <- Hlen; eapply lookup_lt_Some; exact Hw).
  destruct (Hall c Hc) as (h & s & Hw' & Hcol).
  rewrite Hw in Hw'. inversion Hw'; subst h s.
  destruct Hcol as (fi & hd & vd & cc & wh & q & hq & _ & Hrest).
  cbn zeta in Hrest.
  destruct Hrest as (_ & _ & _ & _ & _ & _ & -> & _). lia.
Qed.

(** The cells of the screen after an [update] that returned. *)
Lemma update_cells (key : string) (g g' : Game) :
  wf_game g -> update L key g = (g', Ok tt) ->
  exists walls,
    get_view L g' = Ok walls
    /\ forall num c : nat,
         (num < Z.to_nat (VH g'))%nat -> (c < Z.to_nat (VW g'))%nat ->
         exists height shadow offset,
           walls !! c = Some (PTuple height shadow)
           /\ height <= VH g'
           /\ line_offset (VH g') height = Ok offset
           /\ 0 <= offset
           /\ char_at (screen g') num c
              = Some (glyph (VH g') offset shadow (Z.of_nat num)).
Proof.
  intros Hwf Hup. rewrite update_split in Hup. unfold bindM in Hup.
  destruct (commit_frame L key g) as (x & y & a & Hfr).
  destruct (commit L key g) as [g2 [[]|e]]; [|discriminate].
  cbn [fst] in Hfr.
  assert (Hwf2 : wf_game g2)
    by (subst g2; apply wf_game_set_player, Hwf).
  clear Hfr. destruct Hwf2 as [_ _ [Hrows Hcols]].
  unfold render, bindM in Hup.
  destruct (get_view L g2) as [walls|e] eqn:Hview; [|discriminate].
  assert (Hlen : List.length walls = Z.to_nat (VW g2))
    by exact (proj1 (proj1 (get_view_spec L g2 walls) Hview)).
  assert (Hg : g' = set_screen g2
                     (paint (VH g2) (enumerate walls) (screen g2))).
  { rewrite <- draw_all_paint, Hup. reflexivity. }
  assert (Hok : snd (draw_all (enumerate walls) g2) = Ok tt)
    by (rewrite Hup; reflexivity).
  assert (Henum : List.length (range (Z.of_nat (List.length walls)))
                  = List.length walls).
  { unfold range. rewrite length_map, length_seq, Nat2Z.id. reflexivity. }
  pose proof (draw_all_drawable walls _ g2 Henum Hok) as Hdraw.
  exists walls. subst g'. rewrite get_view_set_screen.
  split; [exact Hview|].
  cbn [VH VW screen set_screen]. intros num c Hnum Hc.
  unfold enumerate, range. rewrite Nat2Z.id.
  destruct (paint_inside (VH g2) (Z.to_nat (VW g2)) walls 0 (screen g2)
              num c ltac:(lia) Hcols Hdraw ltac:(lia) ltac:(lia))
    as (height & shadow & offset & Hw & Hoff & Hch).
  rewrite Nat.sub_0_r in Hw.
  pose proof (get_view_heights_bounded g2 walls c height shadow Hview Hw)
    as Hh.
  exists height, shadow, offset.
  split; [exact Hw|]. split; [exact Hh|]. split; [exact Hoff|].
  split; [exact (line_offset_nonneg _ _ _ Hh Hoff)|exact Hch].
Qed.

(** X9: after an [update] that returned, the screen shows the view of
    the object it belongs to: the cell at row [num] of column [c] is the
    glyph that [draw_line] assigns to row [num] for entry [c] of
    [get_view], and nothing of the previous frame is left. *)
Theorem X9_frame_shows_view (key : string) (g g' : Game) :
  wf_game g -> update L key g = (g', Ok tt) ->
  exists walls,
    get_view L g' = Ok walls
    /\ forall num c : nat,
         (num < Z.to_nat (VH g'))%nat -> (c < Z.to_nat (VW g'))%nat ->
         exists height shadow offset,
           walls !! c = Some (PTuple height shadow)
           /\ line_offset (VH g') height = Ok offset
           /\ char_at (screen g') num c
              = Some (if (offset <? Z.of_nat num)
                         && (Z.of_nat num <? VH g' - offset)
                      then (if shadow then "+"%char else "#"%char)
                      else " "%char).
Proof.
  intros Hwf Hup. destruct (update_cells key g g' Hwf Hup)
    as (walls & Hview & Hcells).
  exists walls. split; [exact Hview|]. intros num c Hnum Hc.
  destruct (Hcells num c Hnum Hc)
    as (height & shadow & offset & Hw & _ & Hoff & _ & Hch).
  exists height, shadow, offset. repeat split; assumption.
Qed.

(** X10: after an [update] that returned, every character of the screen
    is [#], [+] or a blank, and the top row is blank in every column: the
    wall rows start below the offset, which is never negative because
    the heights are clamped to [VH]. *)
Theorem X10_top_row_blank (key : string) (g g' : Game) :
  wf_game g -> update L key g = (g', Ok tt) ->
  forall num c : nat,
    (num < Z.to_nat (VH g'))%nat -> (c < Z.to_nat (VW g'))%nat ->
    exists ch,
      char_at (screen g') num c = Some ch
      /\ (ch = "#"%char \/ ch = "+"%char \/ ch = " "%char)
      /\ (num = 0%nat -> ch = " "%char).
Proof.
  intros Hwf Hup num c Hnum Hc.
  destruct (update_cells key g g' Hwf Hup) as (walls & _ & Hcells).
  destruct (Hcells num c Hnum Hc)
    as (height & shadow & offset & _ & _ & _ & Hpos & Hch).
  eexists. split; [exact Hch|]. unfold glyph. split.
  - destruct ((offset <? Z.of_nat num) && (Z.of_nat num <? VH g' - offset)),
      shadow; auto.
  - intros ->. destruct (Z.ltb_spec offset (Z.of_nat 0)); [lia|].
    reflexivity.
Qed.

End Frame.

Lemma X9_frame_shows_view_witness :
  wf_game game_small
  /\ update libm_poly "w" game_small
     = (fst (update libm_poly "w" game_small), Ok tt)
  /\ exists walls,
       get_view libm_poly (fst (update libm_poly "w" game_small)) = Ok walls.
Proof.
  assert (Hup : update libm_poly "w" game_small
                = (fst (update libm_poly "w" game_small), Ok tt))
    by (vm_compute; reflexivity).
  split; [exact game_small_wf|]. split; [exact Hup|].
  destruct (X9_frame_shows_view libm_poly "w" game_small _
              game_small_wf Hup) as (walls & Hview & _).
  exists walls. exact Hview.
Defined.

Lemma X10_top_row_blank_witness :
  wf_game game_small
  /\ update libm_poly "w" game_small
     = (fst (update libm_poly "w" game_small), Ok tt)
  /\ exists ch,
       char_at (screen (fst (update libm_poly "w" game_small))) 0 3
       = Some ch
       /\ ch = " "%char.
Proof.
  assert (Hup : update libm_poly "w" game_small
                = (fst (update libm_poly "w" game_small), Ok tt))
    by (vm_compute; reflexivity).
  assert (Hnum : (0 < Z.to_nat (VH (fst (update libm_poly "w"
                                           game_small))))%nat)
    by (vm_compute; repeat constructor).
  assert (Hc : (3 < Z.to_nat (VW (fst (update libm_poly "w"
                                         game_small))))%nat)
    by (vm_compute; repeat constructor).
  split; [exact game_small_wf|]. split; [exact Hup|].
  destruct (X10_top_row_blank libm_poly "w" game_small _
              game_small_wf Hup 0%nat 3%nat Hnum Hc)
    as (ch & Hch & _ & Htop).
  exists ch. split; [exact Hch | exact (Htop eq_refl)].
Defined.

(** ** Drawing two lines *)

Lemma draw_screen_twice (vh o1 o2 : Z) (s1 s2 : bool) (w : nat)
    (x1 x2 : Z) (scr : list row) (num : nat) :
  Forall (fun r : row => List.length r = w) scr ->
  0 <= x1 < Z.of_nat w -> 0 <= x2 < Z.of_nat w ->
  draw_screen vh o2 x2 s2 (draw_screen vh o1 x1 s1 scr) !! num
  = (fun r => <[Z.to_nat x2 := glyph vh o2 s2 (Z.of_nat num)]>
                (<[Z.to_nat x1 := glyph vh o1 s1 (Z.of_nat num)]> r))
      <$> scr !! num.
Proof.
  intros Hs H1 H2.
  rewrite (draw_screen_lookup vh o2 x2 s2 _ w num
             (proj2 (draw_screen_shape vh o1 x1 s1 scr w Hs H1)) H2).
  rewrite (draw_screen_lookup vh o1 x1 s1 scr w num Hs H1).
  destruct (scr !! num); reflexivity.
Qed.

(** X11: on a screen of [VH] rows of [VW] characters, lines drawn in two
    different columns can be drawn in either order, and in one column the
    line drawn last replaces the one drawn before it. *)
Theorem X11_draw_line_compose (g : Game) (x x' h h' : Z) (s s' : bool) :
  wf_screen g -> 0 <= x < VW g -> 0 <= x' < VW g ->
  (x <> x' ->
   fst (draw_line x' h' s' (fst (draw_line x h s g)))
   = fst (draw_line x h s (fst (draw_line x' h' s' g))))
  /\ (forall offset, line_offset (VH g) h' = Ok offset ->
      fst (draw_line x h' s' (fst (draw_line x h s g)))
      = fst (draw_line x h' s' g)).
Proof.
  intros [Hrows Hcols] Hx Hx'.
  assert (Hw : 0 <= x < Z.of_nat (Z.to_nat (VW g))) by lia.
  assert (Hw' : 0 <= x' < Z.of_nat (Z.to_nat (VW g))) by lia.
  split.
  - intros Hne.
    destruct (line_offset (VH g) h) as [o|e] eqn:Ho,
             (line_offset (VH g) h') as [o'|e'] eqn:Ho'.
    + rewrite (draw_line_ok x h o s g Ho), (draw_line_ok x' h' o' s' g Ho').
      cbn [fst].
      rewrite (draw_line_ok x' h' o' s' (set_screen g _) Ho'),
        (draw_line_ok x h o s (set_screen g _) Ho).
      cbn [fst screen set_screen VH]. f_equal. apply list_eq. intros num.
      rewrite !(draw_screen_twice _ _ _ _ _ (Z.to_nat (VW g)))
        by assumption.
      destruct (screen g !! num) as [r|]; [|reflexivity]. cbn. f_equal.
      apply list_insert_insert_ne. lia.
    + rewrite (draw_line_ok x h o s g Ho),
        (draw_line_raises x' h' s' g e' Ho'). cbn [fst].
      rewrite (draw_line_raises x' h' s' (set_screen g _) e' Ho'),
        (draw_line_ok x h o s g Ho). reflexivity.
    + rewrite (draw_line_raises x h s g e Ho),
        (draw_line_ok x' h' o' s' g Ho'). cbn [fst].
      rewrite (draw_line_raises x h s (set_screen g _) e Ho),
        (draw_line_ok x' h' o' s' g Ho'). reflexivity.
    + rewrite (draw_line_raises x h s g e Ho),
        (draw_line_raises x' h' s' g e' Ho'). cbn [fst].
      rewrite (draw_line_raises x h s g e Ho),
        (draw_line_raises x' h' s' g e' Ho'). reflexivity.
  - intros o' Ho'.
    destruct (line_offset (VH g) h) as [o|e] eqn:Ho.
    + rewrite (draw_line_ok x h o s g Ho). cbn [fst].
      rewrite (draw_line_ok x h' o' s' (set_screen g _) Ho'),
        (draw_line_ok x h' o' s' g Ho').
      cbn [fst screen set_screen VH]. f_equal. apply list_eq. intros num.
      rewrite (draw_screen_twice _ _ _ _ _ (Z.to_nat (VW g)))
        by assumption.
      rewrite (draw_screen_lookup _ _ _ _ _ (Z.to_nat (VW g)))
        by assumption.
      destruct (screen g !! num) as [r|]; [|reflexivity]. cbn. f_equal.
      apply list_insert_insert_eq.
    + rewrite (draw_line_raises x h s g e Ho). reflexivity.
Qed.

Lemma X11_draw_line_compose_witness :
  wf_screen game_small /\ 0 <= 2 < VW game_small /\ 0 <= 5 < VW game_small
  /\ fst (draw_line 5 4 true (fst (draw_line 2 3 false game_small)))
     = fst (draw_line 2 3 false (fst (draw_line 5 4 true game_small))).
Proof.
  assert (Hwf : wf_screen game_small) by exact (wf_scr _ game_small_wf).
  assert (Hx : 0 <= 2 < VW game_small) by (vm_compute; split; congruence).
  assert (Hx' : 0 <= 5 < VW game_small) by (vm_compute; split; congruence).
  assert (Hne : 2 <> 5) by discriminate.
  split; [exact Hwf|]. split; [exact Hx|]. split; [exact Hx'|].
  exact (proj1 (X11_draw_line_compose game_small 2 5 3 4 false true
                  Hwf Hx Hx') Hne).
Defined.

(** ** The text of a frame *)

Lemma join_cons (sep : list ascii) (r r' : row) (rest : list row) :
  join sep (r :: r' :: rest) = r ++ sep ++ join sep (r' :: rest).
Proof. reflexivity. Qed.

Lemma join_length (w : nat) (rows : list row) :
  Forall (fun r : row => List.length r = w) rows ->
  List.length (join [LF] rows) = (List.length rows * S w - 1)%nat.
Proof.
  induction rows as [|r rest IH]; intros Hs; [reflexivity|].
  inversion Hs as [|? ? Hr Hrest]; subst.
  destruct rest as [|r' rest].
  - cbn. lia.
  - rewrite join_cons, !length_app, (IH Hrest). cbn [List.length]. lia.
Qed.

Lemma join_lookup (w : nat) (rows : list row) :
  Forall (fun r : row => List.length r = w) rows ->
  forall num c : nat,
    (num < List.length rows)%nat -> (c < w)%nat ->
    join [LF] rows !! (num * S w + c)%nat = char_at rows num c.
Proof.
  unfold char_at.
  induction rows as [|r rest IH]; intros Hs num c Hnum Hc;
    [cbn in Hnum; lia|].
  inversion Hs as [|? ? Hr Hrest]; subst.
  destruct rest as [|r' rest].
  - destruct num; [|cbn in Hnum; lia]. reflexivity.
  - rewrite join_cons. destruct num as [|num].
    + cbn [Nat.mul Nat.add lookup list_lookup mbind option_bind].
      apply lookup_app_l. lia.
    + cbn [lookup list_lookup].
      rewrite app_assoc, lookup_app_r
        by (rewrite length_app; cbn [List.length]; lia).
      rewrite length_app. cbn [List.length Nat.mul].
      match goal with
      | |- _ !! ?i = _ =>
          replace i with (num * S (List.length r) + c)%nat
            by (clear; lia)
      end.
      apply (IH Hrest); [cbn [List.length] in Hnum |- *; lia | exact Hc].
Qed.

Lemma join_line_feed (w : nat) (rows : list row) :
  Forall (fun r : row => List.length r = w) rows ->
  forall num : nat,
    (S num < List.length rows)%nat ->
    join [LF] rows !! (num * S w + w)%nat = Some LF.
Proof.
  induction rows as [|r rest IH]; intros Hs num Hnum;
    [cbn in Hnum; lia|].
  inversion Hs as [|? ? Hr Hrest]; subst.
  destruct rest as [|r' rest]; [cbn in Hnum; lia|].
  rewrite join_cons. destruct num as [|num].
  - cbn [Nat.mul Nat.add]. rewrite lookup_app_r by lia.
    rewrite Nat.sub_diag. reflexivity.
  - rewrite app_assoc, lookup_app_r
      by (rewrite length_app; cbn [List.length]; lia).
    rewrite length_app. cbn [List.length Nat.mul].
    match goal with
    | |- _ !! ?i = _ =>
        replace i with (num * S (List.length r) + List.length r)%nat
          by (clear; lia)
    end.
    apply (IH Hrest). cbn [List.length] in Hnum |- *. lia.
Qed.

(** X12: the text of a frame lays the screen out as [VH] lines of [VW]
    characters after the eleven characters that clear the terminal: the
    cell at row [num], column [c] is the character at position
    [11 + num * (VW + 1) + c], every line but the last is followed by a
    line feed, and nothing follows the last line. *)
Theorem X12_refresh_screen_layout (g : Game) :
  wf_screen g ->
  let vw := Z.to_nat (VW g) in
  let vh := Z.to_nat (VH g) in
  (forall num c : nat, (num < vh)%nat -> (c < vw)%nat ->
     refresh_screen g !! (11 + num * S vw + c)%nat
     = char_at (screen g) num c)
  /\ (forall num : nat, (S num < vh)%nat ->
      refresh_screen g !! (11 + num * S vw + vw)%nat = Some LF)
  /\ List.length (refresh_screen g) = (11 + (vh * S vw - 1))%nat.
Proof.
  intros [Hrows Hcols] vw vh. unfold refresh_screen.
  assert (Hclear : List.length clear_sequence = 11%nat) by reflexivity.
  split; [|split].
  - intros num c Hnum Hc.
    rewrite lookup_app_r by (rewrite Hclear; lia). rewrite Hclear.
    replace (11 + num * S vw + c - 11)%nat with (num * S vw + c)%nat by lia.
    apply (join_lookup vw); [exact Hcols | lia | exact Hc].
  - intros num Hnum.
    rewrite lookup_app_r by (rewrite Hclear; lia). rewrite Hclear.
    replace (11 + num * S vw + vw - 11)%nat with (num * S vw + vw)%nat
      by lia.
    apply (join_line_feed vw); [exact Hcols | lia].
  - rewrite length_app, Hclear, (join_length vw _ Hcols), Hrows.
    reflexivity.
Qed.

Lemma X12_refresh_screen_layout_witness :
  wf_screen game_small
  /\ refresh_screen game_small !! (11 + 2 * S (Z.to_nat (VW game_small)) + 3)%nat
     = char_at (screen game_small) 2 3.
Proof.
  assert (Hwf : wf_screen game_small) by exact (wf_scr _ game_small_wf).
  assert (Hnum : (2 < Z.to_nat (VH game_small))%nat)
    by (vm_compute; repeat constructor).
  assert (Hc : (3 < Z.to_nat (VW game_small))%nat)
    by (vm_compute; repeat constructor).
  split; [exact Hwf|].
  exact (proj1 (X12_refresh_screen_layout game_small Hwf) 2%nat 3%nat
           Hnum Hc).
Defined.

(** ** The constructor *)

Lemma map_const_repeat {A B : Type} (v : B) (xs : list A) :
  map (fun _ => v) xs = repeat v (List.length xs).
Proof. induction xs as [|x xs IH]; cbn; [reflexivity | f_equal; exact IH]. Qed.

Lemma float_of_int_columns (columns : Z) :
  1 <= columns <= 2000 ->
  exists w, float_of_int columns = Ok w /\ PrimFloat.eqb w 0 = false.
Proof.
  intros Hc.
  set (ok := fun k : nat =>
         match float_of_int (Z.of_nat k + 1) with
         | Ok w => negb (PrimFloat.eqb w 0)
         | Raise _ => false
         end).
  assert (Hall : forallb ok (seq 0 2000) = true) by (vm_compute; reflexivity).
  rewrite forallb_forall in Hall.
  specialize (Hall (Z.to_nat (columns - 1))).
  assert (Hin : In (Z.to_nat (columns - 1)) (seq 0 2000))
    by (apply in_seq; lia).
  specialize (Hall Hin). unfold ok in Hall.
  replace (Z.of_nat (Z.to_nat (columns - 1)) + 1) with columns in Hall
    by lia.
  destruct (float_of_int columns) as [w|e]; [|discriminate].
  exists w. split; [reflexivity|]. apply negb_true_iff. exact Hall.
Qed.

(** X13: on a terminal of width 0 the constructor raises
    [ZeroDivisionError] (the angle step divides by the width); on a
    terminal of 1 to 2000 columns it returns an object with the given
    player, [WALL_HEIGHT = VH], [ANGLE_STEP = FOV / VW] and a screen of
    [VH] rows of [VW] characters, all [+]. *)
Theorem X13_Game_init (columns lines : Z) (x y angle : float) :
  (columns = 0 ->
   Game_init columns lines x y angle = Raise ZeroDivisionError)
  /\ (1 <= columns <= 2000 ->
      exists g,
        Game_init columns lines x y angle = Ok g
        /\ VW g = columns /\ VH g = lines /\ WALL_HEIGHT g = lines
        /\ player_x g = x /\ player_y g = y /\ player_angle g = angle
        /\ (exists w, float_of_int columns = Ok w
                      /\ ANGLE_STEP g = (FOV / w)%float)
        /\ screen g
           = repeat (repeat "+"%char (Z.to_nat columns)) (Z.to_nat lines)
        /\ wf_game g).
Proof.
  split.
  - intros ->. reflexivity.
  - intros Hc. destruct (float_of_int_columns columns Hc) as (w & Hw & Hnz).
    pose proof (Game_init_wf columns lines x y angle) as Hwf.
    unfold Game_init in *. rewrite Hw in *. cbn [bind] in *.
    unfold truediv in *. rewrite Hnz in *. cbn [bind] in *.
    eexists. split; [reflexivity|]. cbn.
    repeat (split; [reflexivity|]).
    split; [exists w; split; reflexivity|].
    split; [|apply Hwf; reflexivity].
    rewrite map_const_repeat, (map_const_repeat _ (range columns)).
    unfold range. rewrite !length_map, !length_seq. reflexivity.
Qed.

Lemma X13_Game_init_witness :
  1 <= 80 <= 2000
  /\ exists g, Game_init 80 24 3 3 1 = Ok g /\ VW g = 80 /\ wf_game g.
Proof.
  assert (Hc : 1 <= 80 <= 2000) by lia.
  split; [exact Hc|].
  destruct (proj2 (X13_Game_init 80 24 3 3 1) Hc)
    as (g & Hg & Hvw & _ & _ & _ & _ & _ & _ & _ & Hwf).
  exists g. split; [exact Hg|]. split; [exact Hvw | exact Hwf].
Defined.

(** ** The exceptions that can leave [update] *)







Section Exceptions.

Variable L : Libm.

















End Exceptions.


(** ** A frame owes nothing to the frame before it *)

Section Overwrite.

Variable L : Libm.

Lemma apply_key_set_screen (key : string) (g : Game) (s : list row) :
  apply_key L key (set_screen g s)
  = (set_screen (fst (apply_key L key g)) s, snd (apply_key L key g)).
Proof.
  unfold apply_key.
  destruct (String.eqb key "w");
    [|destruct (String.eqb key "s");
      [|destruct (String.eqb key "d");
        [|destruct (String.eqb key "a");
          [|destruct (String.eqb key "q")]]]];
    unfold bindM, gets, lift, modify, retM; cbn; try reflexivity.
  - destruct (math_cos L (player_angle g)); cbn; [|reflexivity].
    destruct (math_sin L (player_angle g)); reflexivity.
  - destruct (math_cos L (player_angle g)); cbn; [|reflexivity].
    destruct (math_sin L (player_angle g)); reflexivity.
Qed.

Lemma commit_set_screen (key : string) (g : Game) (s : list row) :
  commit L key (set_screen g s)
  = (set_screen (fst (commit L key g)) s, snd (commit L key g)).
Proof.
  unfold commit, bindM, gets, lift, modify, retM.
  rewrite apply_key_set_screen.
  destruct (apply_key L key g) as [g1 [[]|e]]; cbn; [|reflexivity].
  destruct (point_in_wall (player_x g1) (player_y g1)) as [[|]|e];
    reflexivity.
Qed.

(** X15: the frame is redrawn in full: two objects that differ only in
    the content of their screens (both of [VH] rows of [VW] characters)
    are the same object after an [update] that returns. *)
Theorem X15_frame_fully_redrawn (key : string) (g g' : Game)
    (scr : list row) :
  wf_screen g -> wf_screen (set_screen g scr) ->
  update L key g = (g', Ok tt) ->
  update L key (set_screen g scr) = (g', Ok tt).
Proof.
  intros Hwf [Hrows' Hcols'] Hup. cbn [screen VW VH set_screen] in *.
  rewrite update_split in *. unfold bindM in *.
  rewrite commit_set_screen.
  destruct (commit_frame L key g) as (x & y & a & Hfr).
  destruct (commit L key g) as [g2 [[]|e]]; [|discriminate].
  cbn [fst snd] in *.
  assert (Hwf2 : wf_screen g2) by (subst g2; exact Hwf).
  assert (Hvw : VW g2 = VW g) by (subst g2; reflexivity).
  assert (Hvh : VH g2 = VH g) by (subst g2; reflexivity).
  clear Hfr. destruct Hwf2 as [Hrows Hcols].
  unfold render, bindM in *. rewrite get_view_set_screen.
  destruct (get_view L g2) as [walls|e] eqn:Hview; [|discriminate].
  assert (Hlen : List.length walls = Z.to_nat (VW g2))
    by exact (proj1 (proj1 (get_view_spec L g2 walls) Hview)).
  assert (Hok : snd (draw_all (enumerate walls) g2) = Ok tt)
    by (rewrite Hup; reflexivity).
  assert (Henum : List.length (range (Z.of_nat (List.length walls)))
                  = List.length walls).
  { unfold range. rewrite length_map, length_seq, Nat2Z.id. reflexivity. }
  pose proof (draw_all_drawable walls _ g2 Henum Hok) as Hdraw.
  rewrite (surjective_pairing (draw_all (enumerate walls)
                                 (set_screen g2 scr))).
  rewrite draw_all_paint.
  rewrite (draw_all_outcome (enumerate walls) (set_screen g2 scr) g2)
    by reflexivity.
  rewrite Hok. f_equal.
  assert (Hg : g' = set_screen g2
                     (paint (VH g2) (enumerate walls) (screen g2)))
    by (rewrite <- draw_all_paint, Hup; reflexivity).
  rewrite Hg. cbn [VH screen set_screen]. f_equal.
  unfold enumerate, range. rewrite Nat2Z.id.
  apply (paint_agree (VH g2) (Z.to_nat (VW g2)) walls 0).
  - lia.
  - rewrite Hvw. exact Hcols'.
  - exact Hcols.
  - split; [congruence|]. intros num c Hc. lia.
  - exact Hdraw.
Qed.

End Overwrite.

Lemma X15_frame_fully_redrawn_witness :
  wf_screen game_small
  /\ wf_screen (set_screen game_small (repeat (repeat " "%char 8) 6))
  /\ update libm_poly "w" game_small
     = (fst (update libm_poly "w" game_small), Ok tt)
  /\ update libm_poly "w"
       (set_screen game_small (repeat (repeat " "%char 8) 6))
     = (fst (update libm_poly "w" game_small), Ok tt).
Proof.
  assert (Hwf : wf_screen game_small) by exact (wf_scr _ game_small_wf).
  assert (Hwf' : wf_screen (set_screen game_small
                              (repeat (repeat " "%char 8) 6)))
    by (split; [vm_compute; reflexivity|];
        vm_compute; repeat constructor).
  assert (Hup : update libm_poly "w" game_small
                = (fst (update libm_poly "w" game_small), Ok tt))
    by (vm_compute; reflexivity).
  split; [exact Hwf|]. split; [exact Hwf'|]. split; [exact Hup|].
  exact (X15_frame_fully_redrawn libm_poly "w" game_small _ _ Hwf Hwf' Hup).
Defined.
